(** * armour: the record layer of the password database (armour/pdb/entries.py)

    A shallow embedding of [PdbEntry], [PdbRawEntry], [PdbPwdEntry] and
    [PdbEntries], with the properties of the field codec, of the two
    admission gates and of the selective field encryption.

    Conventions of the embedding:
    - [bytes] values are lists of [Byte.byte];
    - a [BytesIO] stream is the list of bytes not read yet; [read n]
      returns at most [n] bytes and never fails, as [BytesIO.read] does;
    - a Python [dict] is an association list in insertion order with
      unique keys ([dict_set] overwrites in place or appends);
    - a raised exception is the [Raise] constructor of [result];
    - an operation that mutates the collection before it raises returns
      the mutated state together with the [Raise]. *)

From Stdlib Require Import List Arith NArith Lia Bool.
From Stdlib Require Import Strings.Byte.
From Stdlib Require String Ascii DecimalString.
Import (notations) Stdlib.Strings.String.
From Equations Require Import Equations.
Import ListNotations.

Set Implicit Arguments.
Set Default Proof Using "Type".

(** ** Bytes *)

Definition bytes := list byte.

Definition bytes_eq_dec : forall x y : bytes, {x = y} + {x <> y} :=
  list_eq_dec Byte.byte_eq_dec.

Definition bytes_eqb (x y : bytes) : bool :=
  if bytes_eq_dec x y then true else false.

(** ** Exceptions (module [exc]) and results *)

Inductive exn : Type :=
| FormatError
| DataIntegrityError (entry_id : nat) (ehash : bytes)
| StructureError (entry_id : nat)
| DecryptionError
| KeyError (name : bytes).

Inductive result (A : Type) : Type :=
| Ok (a : A)
| Raise (x : exn).
Arguments Ok {A} a.
Arguments Raise {A} x.

Definition bind {A B} (r : result A) (k : A -> result B) : result B :=
  match r with
  | Ok a => k a
  | Raise x => Raise x
  end.

Notation "x <- r ;; k" := (bind r (fun x => k))
  (at level 61, r at next level, right associativity).

(** ** [BytesIO] *)

Definition read (n : nat) (b : bytes) : bytes * bytes :=
  (firstn n b, skipn n b).

(** ** Struct helpers (module [s]) *)

Module s.

(** Modelled from the spec: the constant [s.BL] is not under src/.  It
    is the width of a field identifier; the source compares an identifier
    it has read with the one-byte literal [b"\0"] and names the password
    fields by one byte each, so the width is one. *)
Definition BL : nat := 1.

(** Modelled from the spec: the format [s.L] is not under src/.  The
    spec gives a fixed-width unsigned length of "L bytes" in one fixed
    byte order; it is taken as four bytes, least significant first. *)
Definition L : nat := 4.

Definition byte_of_N (n : N) : byte :=
  match Byte.of_N (n mod 256) with
  | Some c => c
  | None => "000"%byte
  end.

Fixpoint le_encode (w : nat) (n : N) : bytes :=
  match w with
  | 0 => []
  | S w' => byte_of_N n :: le_encode w' (n / 256)
  end.

Fixpoint le_decode (bs : bytes) : N :=
  match bs with
  | [] => 0%N
  | c :: bs' => (Byte.to_N c + 256 * le_decode bs')%N
  end.

(** The largest length the prefix can hold, plus one. *)
Definition L_range : N := (2 ^ (8 * N.of_nat L))%N.

(** Modelled from the spec: [s.pack] is not under src/.  It writes a
    length as the [L]-byte unsigned prefix.  The spec only speaks of
    lengths within the range of the prefix; beyond it the low-order
    bytes are kept here, and every statement below that encodes a value
    carries the range as a hypothesis. *)
Definition pack (n : nat) : bytes := le_encode L (N.of_nat n).

(** Modelled from the spec: [s.sunpack] is not under src/.  It reads the
    [L]-byte length from the stream.  The spec classes a truncated
    framing as a FormatError, so a read that yields fewer than [L]
    bytes raises it. *)
Definition sunpack (b : bytes) : result (nat * bytes) :=
  let (raw, rest) := read L b in
  if length raw =? L then Ok (N.to_nat (le_decode raw), rest)
  else Raise FormatError.

End s.

(** ** Dictionaries in insertion order *)

Definition dict := list (bytes * bytes).

Fixpoint dict_get (name : bytes) (d : dict) : option bytes :=
  match d with
  | [] => None
  | (k, v) :: d' => if bytes_eq_dec k name then Some v else dict_get name d'
  end.

Definition dict_mem (name : bytes) (d : dict) : bool :=
  match dict_get name d with
  | Some _ => true
  | None => false
  end.

(** [d[name] = value]: an existing key keeps its position. *)
Fixpoint dict_set (name value : bytes) (d : dict) : dict :=
  match d with
  | [] => [(name, value)]
  | (k, v) :: d' =>
      if bytes_eq_dec k name then (k, value) :: d'
      else (k, v) :: dict_set name value d'
  end.

Definition dict_keys (d : dict) : list bytes := map fst d.

(** The store after the fields [recs] were written in order, each value
    through [tr]. *)
Definition store_all (tr : bytes -> bytes -> bytes)
    (recs : list (bytes * bytes)) (d : dict) : dict :=
  fold_left (fun acc kv => dict_set (fst kv) (tr (fst kv) (snd kv)) acc) recs d.

(** ** The container context (module [header], an external collaborator) *)

Record PdbHeader : Type := {
  password : bytes;
  salt : bytes;
  hash_id : nat;
  kdf_passes : nat;
  hash_salt_len : nat;
  sec_crypto_passes : nat;
  zstd_comp_lvl : nat;
  entries : bytes
}.

Definition set_entries (blob : bytes) (h : PdbHeader) : PdbHeader :=
  {| password := password h; salt := salt h; hash_id := hash_id h;
     kdf_passes := kdf_passes h; hash_salt_len := hash_salt_len h;
     sec_crypto_passes := sec_crypto_passes h;
     zstd_comp_lvl := zstd_comp_lvl h; entries := blob |}.

(** ** Entries *)

(** The two concrete classes; [entry_t] in [PdbEntries.gather]. *)
Inductive entry_t : Type := PdbRawEntry | PdbPwdEntry.

Record PdbEntry : Type := {
  cls : entry_t;
  entry_id : nat;
  head : PdbHeader;
  ehash : bytes;
  fields : dict
}.

Definition with_fields (d : dict) (e : PdbEntry) : PdbEntry :=
  {| cls := cls e; entry_id := entry_id e; head := head e;
     ehash := ehash e; fields := d |}.

Definition with_ehash (h : bytes) (e : PdbEntry) : PdbEntry :=
  {| cls := cls e; entry_id := entry_id e; head := head e;
     ehash := h; fields := fields e |}.

(** ** The field loop

    [while (ident := b.read (s.BL)) != b"\0": setter (ident, b.read
    (s.sunpack (s.L, b)))], the loop of [PdbEntry.from_entry] (with
    [self[ident] = ...] as setter) and of [PdbEntries.gather] (with
    [e.set_field_raw]).  It returns the entry and the stream after the
    sentinel.  Each turn that goes on has read a full length prefix, so the
    stream shrinks and the loop ends. *)

(** A value kept together with the equation that gives it. *)
Definition inspect {A} (a : A) : {b : A | a = b} := exist _ a eq_refl.

Lemma sunpack_rest (b b' : bytes) (n : nat) :
  s.sunpack b = Ok (n, b') -> length b = s.L + length b'.
Proof.
  unfold s.sunpack, read.
  destruct (Nat.eqb_spec (length (firstn s.L b)) s.L) as [E|E]; [|discriminate].
  intros H.
  assert (Hb : skipn s.L b = b') by (injection H; intros Hr _; exact Hr).
  rewrite <- Hb, length_skipn. rewrite length_firstn in E. lia.
Qed.

Equations? read_fields (setter : bytes -> bytes -> PdbEntry -> PdbEntry)
    (b : bytes) (e : PdbEntry) : result (PdbEntry * bytes)
    by wf (length b) lt :=
read_fields setter b e with bytes_eq_dec (fst (read s.BL b)) ["000"%byte] := {
  | left _ => Ok (e, snd (read s.BL b))
  | right _ with inspect (s.sunpack (snd (read s.BL b))) := {
    | exist _ (Raise x) _ => Raise x
    | exist _ (Ok (n, b2)) _ =>
        read_fields setter (snd (read n b2))
          (setter (fst (read s.BL b)) (fst (read n b2)) e) } }.
Proof.
  match goal with
  | H : s.sunpack _ = Ok _ |- _ => apply sunpack_rest in H; revert H
  end.
  rewrite length_skipn. unfold s.L. destruct b; simpl; lia.
Qed.

(** The loop as one unfolding of its body. *)
Lemma read_fields_eq setter b e :
  read_fields setter b e =
  if bytes_eq_dec (fst (read s.BL b)) ["000"%byte]
  then Ok (e, snd (read s.BL b))
  else match s.sunpack (snd (read s.BL b)) with
       | Raise x => Raise x
       | Ok (n, b2) =>
           read_fields setter (snd (read n b2))
             (setter (fst (read s.BL b)) (fst (read n b2)) e)
       end.
Proof.
  rewrite read_fields_equation_1.
  destruct (bytes_eq_dec (fst (read s.BL b)) ["000"%byte]) as [E|E];
    simp read_fields; [reflexivity|].
  destruct (inspect (s.sunpack (snd (read s.BL b)))) as [[[len b2]|x] Heq];
    simp read_fields; rewrite Heq; rewrite ?read_fields_equation_1; reflexivity.
Qed.

(** Every successful pass of the loop has consumed at least the sentinel. *)
Lemma read_fields_rest setter b e e' b' :
  read_fields setter b e = Ok (e', b') -> length b' < length b.
Proof.
  remember (length b) as m eqn:Hm. revert b e Hm.
  induction m as [m IH] using lt_wf_ind. intros b e Hm.
  rewrite read_fields_eq.
  destruct (bytes_eq_dec (fst (read s.BL b)) ["000"%byte]) as [E|E].
  - intros H. injection H as _ <-.
    destruct b; [discriminate E|]. simpl. subst m. simpl. lia.
  - destruct (s.sunpack (snd (read s.BL b))) as [[len b2]|x] eqn:Hs;
      [|discriminate].
    apply sunpack_rest in Hs. intros H.
    assert (Hlt : length (snd (read len b2)) < m).
    { unfold read in *. cbn [snd] in *. rewrite length_skipn in *.
      unfold s.L in Hs. lia. }
    specialize (IH _ Hlt _ _ eq_refl H). lia.
Qed.

(** ** The classes, over the crypto collaborator and the container context *)

Section Entries.

(** [crypt.hash_walgo (hash_id, data, password, salt, kdf_passes,
    hash_salt_len)] and its comparison with a stored tag. *)
Variable hash_walgo : nat -> bytes -> bytes -> bytes -> nat -> nat -> bytes.
Variable hash_walgo_compare :
  nat -> bytes -> bytes -> bytes -> nat -> nat -> bytes -> bool.

(** [crypt.encrypt_secure (data, password, salt, hash_id, hash_salt_len,
    sec_crypto_passes, kdf_passes, zstd_comp_lvl)] and
    [crypt.decrypt_secure] with the same parameters but the last. *)
Variable encrypt_secure :
  bytes -> bytes -> bytes -> nat -> nat -> nat -> nat -> nat -> bytes.
Variable decrypt_secure :
  bytes -> bytes -> bytes -> nat -> nat -> nat -> nat -> result bytes.

(** [head.decrypt ()] and [head.ds ()] of the container context. *)
Variable decrypt : PdbHeader -> result PdbHeader.
Variable ds : PdbHeader -> nat.

(** [repr] of Python on a [bytes] value. *)
Variable repr : bytes -> String.string.

(** *** [PdbEntry] *)

Definition entry (e : PdbEntry) : bytes :=
  concat (map (fun '(field, data) => field ++ s.pack (length data) ++ data)
              (fields e)).

Definition full_entry (e : PdbEntry) : bytes :=
  ehash e ++ entry e ++ ["000"%byte].

Definition rehash (e : PdbEntry) : PdbEntry :=
  with_ehash
    (hash_walgo (hash_id (head e)) (entry e) (password (head e))
       (salt (head e)) (kdf_passes (head e)) (hash_salt_len (head e)))
    e.

Definition hash_ok (e : PdbEntry) : bool :=
  hash_walgo_compare (hash_id (head e)) (entry e) (password (head e))
    (salt (head e)) (kdf_passes (head e)) (hash_salt_len (head e)) (ehash e).

Definition revalidate (e : PdbEntry) : result PdbEntry :=
  if negb (hash_ok e) then Raise (DataIntegrityError (entry_id e) (ehash e))
  else Ok e.

Definition set_field_raw (name value : bytes) (e : PdbEntry) : PdbEntry :=
  with_fields (dict_set name value (fields e)) e.

Definition get_field_raw (name : bytes) (e : PdbEntry) : result bytes :=
  match dict_get name (fields e) with
  | Some v => Ok v
  | None => Raise (KeyError name)
  end.

Definition contains (name : bytes) (e : PdbEntry) : bool :=
  dict_mem name (fields e).

(** *** [PdbPwdEntry] *)

Definition all_fields : list bytes :=
  [["n"%byte]; ["u"%byte]; ["p"%byte]; ["r"%byte]].

Definition encrypted_fields : list bytes := [["u"%byte]; ["p"%byte]].

Definition _get_crypt (name : bytes) (e : PdbEntry) : result bytes :=
  raw <- get_field_raw name e ;;
  decrypt_secure raw (password (head e)) (salt (head e)) (hash_id (head e))
    (hash_salt_len (head e)) (sec_crypto_passes (head e))
    (kdf_passes (head e)).

Definition _set_crypt (name value : bytes) (e : PdbEntry) : PdbEntry :=
  set_field_raw name
    (encrypt_secure value (password (head e)) (salt (head e))
       (hash_id (head e)) (hash_salt_len (head e))
       (sec_crypto_passes (head e)) (kdf_passes (head e))
       (zstd_comp_lvl (head e)))
    e.

(** *** The abstract methods, dispatched on the class *)

Definition set_field (name value : bytes) (e : PdbEntry) : PdbEntry :=
  match cls e with
  | PdbRawEntry => set_field_raw name value e
  | PdbPwdEntry =>
      if in_dec bytes_eq_dec name encrypted_fields
      then _set_crypt name value e
      else set_field_raw name value e
  end.

Definition get_field (name : bytes) (e : PdbEntry) : result bytes :=
  match cls e with
  | PdbRawEntry => get_field_raw name e
  | PdbPwdEntry =>
      if in_dec bytes_eq_dec name encrypted_fields
      then _get_crypt name e
      else get_field_raw name e
  end.

Definition validate_struct (e : PdbEntry) : result PdbEntry :=
  match cls e with
  | PdbRawEntry => Ok e
  | PdbPwdEntry =>
      if negb (forallb (fun field => dict_mem field (fields e)) all_fields)
      then Raise (StructureError (entry_id e))
      else Ok e
  end.

(** [self[name] = value] and [self[name]]. *)
Definition setitem (name value : bytes) (e : PdbEntry) : PdbEntry :=
  set_field name value e.

Definition getitem (name : bytes) (e : PdbEntry) : result bytes :=
  get_field name e.

(** [entry_t (head, ehash, fields)]: the constructor takes the next value
    of the class counter [PdbEntry.entry_id] and returns the counter
    advanced by one. *)
Definition init (t : entry_t) (counter : nat) (h : PdbHeader) (eh : bytes)
    (fs : option dict) : PdbEntry * nat :=
  let e := {| cls := t; entry_id := counter; head := h; ehash := eh;
              fields := [] |} in
  (match fs with
   | None => e
   | Some d => fold_left (fun acc '(field, value) => setitem field value acc) d e
   end, S counter).

Definition from_entry (e : PdbEntry) (data : bytes) : result PdbEntry :=
  r <- read_fields setitem data e ;; Ok (fst r).

(** *** [PdbEntries] *)

Record PdbEntries : Type := {
  ents : list PdbEntry;
  ents_head : PdbHeader
}.

(** The interpreter state an operation of the collection runs in: the
    class counter [PdbEntry.entry_id] and the collection itself. *)
Record state : Type := {
  counter : nat;
  self : PdbEntries
}.

Definition PdbEntries_init (h : PdbHeader) : PdbEntries :=
  {| ents := []; ents_head := h |}.

Definition append (e : PdbEntry) (c : PdbEntries) : PdbEntries :=
  {| ents := ents c ++ [e]; ents_head := ents_head c |}.

Definition set_head (h : PdbHeader) (c : PdbEntries) : PdbEntries :=
  {| ents := ents c; ents_head := h |}.

(** The [while (h := b.read (self.head.ds ())) != b""] loop of [gather]. *)
Equations? gather_loop (t : entry_t) (b : bytes) (st : state)
    : state * result unit by wf (length b) lt :=
gather_loop t b st with inspect (read (ds (ents_head (self st))) b) := {
  | exist _ ([], _) _ => (st, Ok tt)
  | exist _ (h0 :: h, b1) _
      with inspect (read_fields set_field_raw b1
                      (fst (init t (counter st) (ents_head (self st))
                              (h0 :: h) None))) := {
    | exist _ (Raise x) _ =>
        ({| counter := S (counter st); self := self st |}, Raise x)
    | exist _ (Ok (e, b2)) _ with revalidate e := {
      | Raise x => ({| counter := S (counter st); self := self st |}, Raise x)
      | Ok e1 with validate_struct e1 := {
        | Raise x =>
            ({| counter := S (counter st); self := self st |}, Raise x)
        | Ok e2 =>
            gather_loop t b2
              {| counter := S (counter st); self := append e2 (self st) |} } } } }.
Proof.
  match goal with H : read_fields _ _ _ = Ok _ |- _ =>
    pose proof (read_fields_rest _ _ _ H) as Hlt end.
  rewrite length_skipn in Hlt. lia.
Qed.

Definition gather (t : entry_t) (st : state) : state * result unit :=
  match decrypt (ents_head (self st)) with
  | Raise x => (st, Raise x)
  | Ok hd =>
      let st1 := {| counter := counter st; self := set_head hd (self st) |} in
      if bytes_eq_dec (entries hd) [] then (st1, Ok tt)
      else gather_loop t (entries hd) st1
  end.

Definition add_entry (e : PdbEntry) (c : PdbEntries)
    : PdbEntries * result unit :=
  match revalidate e with
  | Raise x => (c, Raise x)
  | Ok e1 =>
      match validate_struct e1 with
      | Raise x => (c, Raise x)
      | Ok e2 => (append e2 c, Ok tt)
      end
  end.

Definition db_entries (c : PdbEntries) : bytes :=
  concat (map full_entry (ents c)).

(** [commit] changes one object only, the container [self.head]: it is
    decrypted and its blob replaced.  The entries of the collection hold
    that object by reference and are not touched, so the model gives the
    contents [commit] leaves in the container, or the error of
    [decrypt]. *)
Definition commit (c : PdbEntries) : result PdbHeader :=
  hd <- decrypt (ents_head c) ;; Ok (set_entries (db_entries c) hd).

(** *** The properties of [PdbPwdEntry]: [name], [username], [password],
    [remark] and their setters *)

Definition pwd_name (e : PdbEntry) : result bytes := getitem ["n"%byte] e.

Definition pwd_set_name (value : bytes) (e : PdbEntry) : PdbEntry :=
  setitem ["n"%byte] value e.

Definition pwd_username (e : PdbEntry) : result bytes := getitem ["u"%byte] e.

Definition pwd_set_username (value : bytes) (e : PdbEntry) : PdbEntry :=
  setitem ["u"%byte] value e.

Definition pwd_password (e : PdbEntry) : result bytes := getitem ["p"%byte] e.

Definition pwd_set_password (value : bytes) (e : PdbEntry) : PdbEntry :=
  setitem ["p"%byte] value e.

Definition pwd_remark (e : PdbEntry) : result bytes := getitem ["r"%byte] e.

Definition pwd_set_remark (value : bytes) (e : PdbEntry) : PdbEntry :=
  setitem ["r"%byte] value e.

(** *** [__str__] *)

Fixpoint spaces (n : nat) : String.string :=
  match n with
  | 0 => String.EmptyString
  | S n' => String.String (Ascii.ascii_of_nat 32) (spaces n')
  end.

(** [format (x, "10s")]: the text, then spaces up to the width. *)
Definition ljust (w : nat) (x : String.string) : String.string :=
  String.append x (spaces (w - String.length x)).

Definition newline : String.string :=
  String.String (Ascii.ascii_of_nat 10) String.EmptyString.

(** [PdbRawEntry.__str__] and [PdbPwdEntry.__str__]. *)
Definition str (e : PdbEntry) : String.string :=
  match cls e with
  | PdbRawEntry =>
      String.concat newline
        (map (fun '(field, data) =>
                String.append "field "%string
                  (String.append (ljust 10 (repr field))
                     (String.append " -- "%string (repr data))))
             (fields e))
  | PdbPwdEntry =>
      String.concat newline
        (map (fun '(field, data) =>
                String.append "field "%string
                  (String.append (ljust 10 (repr field))
                     (String.append " -- "%string
                        (if in_dec bytes_eq_dec field encrypted_fields
                         then "***"%string else repr data))))
             (fields e))
  end.

(** [enumerate]: the elements with their indices from [k]. *)
Fixpoint enumerate {A} (k : nat) (l : list A) : list (nat * A) :=
  match l with
  | [] => []
  | a :: l' => (k, a) :: enumerate (S k) l'
  end.

(** [PdbEntries.__str__]. *)
Definition PdbEntries_str (c : PdbEntries) : String.string :=
  String.concat (String.append newline newline)
    (map (fun '(idx, e) =>
            String.append "--- entry #"%string
              (String.append
                 (DecimalString.NilEmpty.string_of_uint (Nat.to_uint idx))
                 (String.append " ---"%string (String.append newline (str e)))))
         (enumerate 0 (ents c))).

(** ** Vocabulary of the statements *)

(** The state after an entry was constructed, and after it was appended. *)
Definition bump (st : state) : state :=
  {| counter := S (counter st); self := self st |}.

Definition admit_entry (e : PdbEntry) (st : state) : state :=
  {| counter := S (counter st); self := append e (self st) |}.

(** The two gates in the order the collection applies them, and an entry
    that passes both. *)
Definition gates (e : PdbEntry) : result PdbEntry :=
  e1 <- revalidate e ;; validate_struct e1.

Definition gates_ok (e : PdbEntry) : Prop :=
  hash_ok e = true /\ validate_struct e = Ok e.

(** The entry the loop of [gather] parses next from [b]: [None] at a clean
    end of the buffer, otherwise the outcome of the tag read and of the
    field loop. *)
Definition next_entry (t : entry_t) (st : state) (b : bytes)
    : option (result (PdbEntry * bytes)) :=
  match fst (read (ds (ents_head (self st))) b) with
  | [] => None
  | h0 :: h =>
      Some (read_fields set_field_raw (snd (read (ds (ents_head (self st))) b))
              (fst (init t (counter st) (ents_head (self st)) (h0 :: h) None)))
  end.

(** [admits t b st es b' st']: from the buffer [b] in state [st] the loop
    parses the entries [es] one after the other, each passes both gates and
    is appended, and the loop stands at [b'] in state [st']. *)
Inductive admits (t : entry_t) : bytes -> state -> list PdbEntry ->
    bytes -> state -> Prop :=
| admits_nil b st : admits t b st [] b st
| admits_cons b st e b2 es b' st' :
    next_entry t st b = Some (Ok (e, b2)) ->
    gates e = Ok e ->
    admits t b2 (admit_entry e st) es b' st' ->
    admits t b st (e :: es) b' st'.

(** The bytes of one field, and of the fields of a store, on the wire. *)
Definition encode_field (kv : bytes * bytes) : bytes :=
  fst kv ++ s.pack (length (snd kv)) ++ snd kv.

Definition encode_fields (d : dict) : bytes := concat (map encode_field d).

(** A field the wire format can carry: a name of the identifier width that
    is not the sentinel, and a value whose length fits the prefix. *)
Definition wf_field (kv : bytes * bytes) : Prop :=
  length (fst kv) = s.BL /\ fst kv <> ["000"%byte] /\
  (N.of_nat (length (snd kv)) < s.L_range)%N.

(** The setter applied to the fields in wire order. *)
Definition apply_fields (setter : bytes -> bytes -> PdbEntry -> PdbEntry)
    (recs : list (bytes * bytes)) (e : PdbEntry) : PdbEntry :=
  fold_left (fun acc kv => setter (fst kv) (snd kv) acc) recs e.

(** A buffer that ends before the sentinel of its field area: at the
    place of an identifier, inside a length prefix, or inside a value whose
    declared length asks for more bytes than remain; possibly after some
    complete fields. *)
Inductive truncated : bytes -> Prop :=
| trunc_ident : truncated []
| trunc_length ident raw :
    length ident = s.BL -> ident <> ["000"%byte] -> length raw < s.L ->
    truncated (ident ++ raw)
| trunc_value ident n value :
    length ident = s.BL -> ident <> ["000"%byte] ->
    (N.of_nat n < s.L_range)%N -> length value < n ->
    truncated (ident ++ s.pack n ++ value)
| trunc_field kv b :
    wf_field kv -> truncated b -> truncated (encode_field kv ++ b).

(** What [set_field] writes into the raw store for [name] and [value]. *)
Definition stored (e : PdbEntry) (name value : bytes) : bytes :=
  match cls e with
  | PdbRawEntry => value
  | PdbPwdEntry =>
      if in_dec bytes_eq_dec name encrypted_fields
      then encrypt_secure value (password (head e)) (salt (head e))
             (hash_id (head e)) (hash_salt_len (head e))
             (sec_crypto_passes (head e)) (kdf_passes (head e))
             (zstd_comp_lvl (head e))
      else value
  end.

(** Modelled from the spec: [crypt.encrypt_secure] and
    [crypt.decrypt_secure] are not under src/.  The spec asks of the field
    cipher that decryption with the parameters of the encryption gives the
    plaintext back. *)
Definition cipher_inverts : Prop :=
  forall x pw sa hid hsl scp kdf lvl,
    decrypt_secure (encrypt_secure x pw sa hid hsl scp kdf lvl)
      pw sa hid hsl scp kdf = Ok x.

(** Modelled from the spec: [crypt.encrypt_secure] is not under src/.  The
    spec asks that the stored ciphertext of a non-empty plaintext never
    equals the plaintext. *)
Definition cipher_hides : Prop :=
  forall x pw sa hid hsl scp kdf lvl,
    x <> [] -> encrypt_secure x pw sa hid hsl scp kdf lvl <> x.

(** The comparison of the collaborator accepts the tag its hash computes
    from the same arguments. *)
Definition hash_consistent : Prop :=
  forall hid data pw sa kdf hsl,
    hash_walgo_compare hid data pw sa kdf hsl
      (hash_walgo hid data pw sa kdf hsl) = true.

(** Two containers with the same secret material and hash parameters: all
    that [hash_ok] reads of a container. *)
Definition same_secrets (h h' : PdbHeader) : Prop :=
  password h = password h' /\ salt h = salt h' /\ hash_id h = hash_id h' /\
  kdf_passes h = kdf_passes h' /\ hash_salt_len h = hash_salt_len h'.

(** The entry [gather] builds when it parses the record of [e]: class [t],
    id [k], container [hd], the tag and the fields of [e]. *)
Definition reparsed (t : entry_t) (hd : PdbHeader) (k : nat) (e : PdbEntry)
    : PdbEntry :=
  {| cls := t; entry_id := k; head := hd; ehash := ehash e;
     fields := fields e |}.

Fixpoint reparsed_from (t : entry_t) (hd : PdbHeader) (k : nat)
    (es : list PdbEntry) : list PdbEntry :=
  match es with
  | [] => []
  | e :: es' => reparsed t hd k e :: reparsed_from t hd (S k) es'
  end.

(** An entry of class [t] whose record [gather] can read back under the
    container [hd]: a tag of the digest size, field names and values the
    wire format can carry, and both gates passed. *)
Definition storable (t : entry_t) (hd : PdbHeader) (e : PdbEntry) : Prop :=
  length (ehash e) = ds hd /\ ehash e <> [] /\
  NoDup (dict_keys (fields e)) /\ Forall wf_field (fields e) /\
  cls e = t /\ same_secrets (head e) hd /\ gates_ok e.

(** ** The length prefix: [pack] and [sunpack] are inverse in range *)

Lemma to_N_lt_256 (c : byte) : (Byte.to_N c < 256)%N.
Proof. pose proof (Byte.to_N_bounded c). lia. Qed.

Lemma to_N_byte_of_N (n : N) : Byte.to_N (s.byte_of_N n) = (n mod 256)%N.
Proof.
  unfold s.byte_of_N. destruct (Byte.of_N (n mod 256)) as [c|] eqn:E.
  - apply Byte.to_of_N. exact E.
  - apply Byte.of_N_None_iff in E.
    pose proof (N.mod_upper_bound n 256). lia.
Qed.

Lemma byte_of_N_to_N (c : byte) (m : N) :
  s.byte_of_N (Byte.to_N c + 256 * m) = c.
Proof.
  unfold s.byte_of_N.
  replace ((Byte.to_N c + 256 * m) mod 256)%N with (Byte.to_N c).
  - rewrite Byte.of_to_N. reflexivity.
  - apply N.mod_unique with (q := m); [apply to_N_lt_256|lia].
Qed.

Lemma length_le_encode (w : nat) (n : N) : length (s.le_encode w n) = w.
Proof. revert n. induction w; intros; simpl; auto. Qed.

Lemma le_decode_encode (w : nat) (n : N) :
  s.le_decode (s.le_encode w n) = (n mod 2 ^ (8 * N.of_nat w))%N.
Proof.
  revert n. induction w as [|w IH]; intros n.
  - simpl. rewrite N.mod_1_r. reflexivity.
  - cbn [s.le_encode s.le_decode]. rewrite IH, to_N_byte_of_N.
    replace (2 ^ (8 * N.of_nat (S w)))%N with (256 * 2 ^ (8 * N.of_nat w))%N.
    + rewrite N.Div0.mod_mul_r. reflexivity.
    + replace (8 * N.of_nat (S w))%N with (8 + 8 * N.of_nat w)%N by lia.
      rewrite N.pow_add_r. reflexivity.
Qed.

Lemma le_encode_decode (bs : bytes) :
  s.le_encode (length bs) (s.le_decode bs) = bs.
Proof.
  induction bs as [|c bs IH]; [reflexivity|].
  cbn [length s.le_encode s.le_decode]. rewrite byte_of_N_to_N. f_equal.
  replace ((Byte.to_N c + 256 * s.le_decode bs) / 256)%N with (s.le_decode bs);
    [exact IH|].
  apply N.div_unique with (r := Byte.to_N c); [apply to_N_lt_256|lia].
Qed.

Lemma le_decode_bound (bs : bytes) :
  (s.le_decode bs < 2 ^ (8 * N.of_nat (length bs)))%N.
Proof.
  induction bs as [|c bs IH]; [simpl; lia|].
  cbn [length s.le_decode].
  replace (8 * N.of_nat (S (length bs)))%N
    with (8 + 8 * N.of_nat (length bs))%N by lia.
  rewrite N.pow_add_r. change (2 ^ 8)%N with 256%N.
  pose proof (to_N_lt_256 c). nia.
Qed.

Lemma length_pack (n : nat) : length (s.pack n) = s.L.
Proof. apply length_le_encode. Qed.

Lemma sunpack_pack (n : nat) (rest : bytes) :
  (N.of_nat n < s.L_range)%N -> s.sunpack (s.pack n ++ rest) = Ok (n, rest).
Proof.
  intros Hn. unfold s.sunpack, read.
  rewrite firstn_app, skipn_app, length_pack, Nat.sub_diag.
  rewrite firstn_all2 by (rewrite length_pack; lia).
  rewrite skipn_all2 by (rewrite length_pack; lia).
  cbn [firstn skipn]. rewrite app_nil_r, length_pack, Nat.eqb_refl. cbn [app].
  unfold s.pack. rewrite le_decode_encode.
  fold s.L_range. rewrite N.mod_small by exact Hn.
  rewrite Nat2N.id. reflexivity.
Qed.

Lemma sunpack_inv (b rest : bytes) (n : nat) :
  s.sunpack b = Ok (n, rest) ->
  b = s.pack n ++ rest /\ (N.of_nat n < s.L_range)%N.
Proof.
  unfold s.sunpack, read.
  destruct (Nat.eqb_spec (length (firstn s.L b)) s.L) as [E|E]; [|discriminate].
  intros H.
  assert (Hn : N.to_nat (s.le_decode (firstn s.L b)) = n)
    by (injection H; intros _ Hr; exact Hr).
  assert (Hb : skipn s.L b = rest) by (injection H; intros Hr _; exact Hr).
  pose proof (le_decode_bound (firstn s.L b)) as Hbd. rewrite E in Hbd.
  fold s.L_range in Hbd. subst n rest. rewrite N2Nat.id. split; [|exact Hbd].
  unfold s.pack. rewrite N2Nat.id. rewrite <- E at 1.
  rewrite le_encode_decode. symmetry. apply firstn_skipn.
Qed.

(** ** Dictionaries *)

Lemma dict_get_set_same k v d : dict_get k (dict_set k v d) = Some v.
Proof.
  induction d as [|[k' v'] d IH]; cbn [dict_set dict_get].
  - destruct (bytes_eq_dec k k); [reflexivity|contradiction].
  - destruct (bytes_eq_dec k' k) as [E|E]; cbn [dict_get].
    + rewrite E. destruct (bytes_eq_dec k k); [reflexivity|contradiction].
    + destruct (bytes_eq_dec k' k); [contradiction|exact IH].
Qed.

Lemma dict_get_set_other k k' v d :
  k <> k' -> dict_get k' (dict_set k v d) = dict_get k' d.
Proof.
  intros Hne. induction d as [|[k0 v0] d IH]; cbn [dict_set dict_get].
  - destruct (bytes_eq_dec k k'); [contradiction|reflexivity].
  - destruct (bytes_eq_dec k0 k) as [E|E]; cbn [dict_get].
    + subst k0. destruct (bytes_eq_dec k k'); [contradiction|reflexivity].
    + destruct (bytes_eq_dec k0 k'); [reflexivity|exact IH].
Qed.

Lemma dict_get_None k d : dict_get k d = None <-> ~ In k (dict_keys d).
Proof.
  induction d as [|[k' v'] d IH]; cbn [dict_get dict_keys map In fst].
  - split; [intros _ H; exact H|reflexivity].
  - destruct (bytes_eq_dec k' k) as [E|E].
    + split; [discriminate|]. intros H. exfalso. apply H. left. exact E.
    + rewrite IH. unfold dict_keys. split.
      * intros H [Hk|Hk]; [exact (E Hk)|exact (H Hk)].
      * intros H Hk. apply H. right. exact Hk.
Qed.

Lemma dict_mem_true k d : dict_mem k d = true <-> In k (dict_keys d).
Proof.
  unfold dict_mem. destruct (dict_get k d) eqn:E.
  - split; [|reflexivity]. intros _.
    destruct (in_dec bytes_eq_dec k (dict_keys d)) as [H|H]; [exact H|].
    apply dict_get_None in H. congruence.
  - split; [discriminate|]. intros H. apply dict_get_None in E. contradiction.
Qed.

Lemma dict_set_fresh k v d :
  ~ In k (dict_keys d) -> dict_set k v d = d ++ [(k, v)].
Proof.
  induction d as [|[k' v'] d IH]; cbn [dict_set dict_keys map In fst app].
  - reflexivity.
  - intros H. destruct (bytes_eq_dec k' k) as [E|E].
    + exfalso. apply H. left. exact E.
    + rewrite IH; [reflexivity|]. intros Hk. apply H. right. exact Hk.
Qed.

Lemma store_all_get_other tr name post d :
  ~ In name (map fst post) ->
  dict_get name (store_all tr post d) = dict_get name d.
Proof.
  revert d. induction post as [|[k v] post IH]; intros d H; [reflexivity|].
  cbn [map fst In] in H. unfold store_all in *. cbn [fold_left fst snd].
  rewrite IH by (intros Hk; apply H; right; exact Hk).
  apply dict_get_set_other. intros Hk. apply H. left. exact Hk.
Qed.

Lemma store_all_get_last tr pre name v post d :
  ~ In name (map fst post) ->
  dict_get name (store_all tr (pre ++ (name, v) :: post) d) =
  Some (tr name v).
Proof.
  intros H. unfold store_all. rewrite fold_left_app. cbn [fold_left fst snd].
  fold (store_all tr pre d).
  fold (store_all tr post (dict_set name (tr name v) (store_all tr pre d))).
  rewrite store_all_get_other by exact H. apply dict_get_set_same.
Qed.

Lemma dict_keys_app d d' : dict_keys (d ++ d') = dict_keys d ++ dict_keys d'.
Proof. apply map_app. Qed.

Lemma store_all_fresh recs d :
  NoDup (dict_keys (d ++ recs)) ->
  store_all (fun _ v => v) recs d = d ++ recs.
Proof.
  revert d. induction recs as [|[k v] recs IH]; intros d H.
  - rewrite app_nil_r. reflexivity.
  - unfold store_all in *. cbn [fold_left fst snd].
    rewrite dict_keys_app in H. cbn [dict_keys map fst] in H.
    pose proof (NoDup_remove_2 _ _ _ H) as Hk.
    rewrite dict_set_fresh.
    + rewrite IH; [rewrite <- app_assoc; reflexivity|].
      rewrite <- app_assoc, dict_keys_app. exact H.
    + intros Hin. apply Hk. apply in_or_app. left. exact Hin.
Qed.

(** ** Unfolding the collection loop *)

Lemma gather_loop_eq t b st :
  gather_loop t b st =
  match fst (read (ds (ents_head (self st))) b) with
  | [] => (st, Ok tt)
  | h0 :: h =>
      match read_fields set_field_raw (snd (read (ds (ents_head (self st))) b))
              (fst (init t (counter st) (ents_head (self st)) (h0 :: h) None))
      with
      | Raise x => (bump st, Raise x)
      | Ok (e, b2) =>
          match revalidate e with
          | Raise x => (bump st, Raise x)
          | Ok e1 =>
              match validate_struct e1 with
              | Raise x => (bump st, Raise x)
              | Ok e2 => gather_loop t b2 (admit_entry e2 st)
              end
          end
      end
  end.
Proof.
  rewrite gather_loop_equation_1.
  destruct (inspect (read (ds (ents_head (self st))) b)) as [[[|h0 h] b1] Hr];
    simp gather_loop;
    pose proof (f_equal fst Hr) as Hr1; pose proof (f_equal snd Hr) as Hr2;
    cbn [fst snd] in Hr1, Hr2; rewrite Hr1; [reflexivity|rewrite Hr2].
  match goal with |- context [inspect ?r] =>
    destruct (inspect r) as [[[e b2]|x] Hf] end;
    simp gather_loop; pose proof Hf as Hf'; cbn [init fst] in Hf' |- *;
    rewrite Hf'; [|reflexivity].
  destruct (revalidate e) as [e1|x]; simp gather_loop; [|reflexivity].
  destruct (validate_struct e1) as [e2|x]; simp gather_loop;
    rewrite ?gather_loop_equation_1; reflexivity.
Qed.

(** ** The field codec *)

Lemma entry_encode_fields e : entry e = encode_fields (fields e).
Proof.
  unfold entry, encode_fields. f_equal. apply map_ext. intros [k v]. reflexivity.
Qed.

Lemma read_app (x b : bytes) : read (length x) (x ++ b) = (x, b).
Proof.
  unfold read. rewrite firstn_app, skipn_app, Nat.sub_diag.
  rewrite firstn_all, skipn_all. cbn [firstn skipn]. rewrite app_nil_r.
  reflexivity.
Qed.

Lemma read_fields_sentinel setter rest e :
  read_fields setter ("000"%byte :: rest) e = Ok (e, rest).
Proof.
  rewrite read_fields_eq. cbn [read s.BL firstn skipn fst snd].
  destruct (bytes_eq_dec ["000"%byte] ["000"%byte]); [reflexivity|contradiction].
Qed.

Lemma read_fields_nonsentinel setter ident b e :
  length ident = s.BL -> ident <> ["000"%byte] ->
  read_fields setter (ident ++ b) e =
  match s.sunpack b with
  | Raise x => Raise x
  | Ok (n, b2) =>
      read_fields setter (snd (read n b2)) (setter ident (fst (read n b2)) e)
  end.
Proof.
  intros Hl Hn. rewrite read_fields_eq. rewrite <- Hl, read_app. cbn [fst snd].
  destruct (bytes_eq_dec ident ["000"%byte]); [contradiction|reflexivity].
Qed.

Lemma read_fields_step setter kv b e :
  wf_field kv ->
  read_fields setter (encode_field kv ++ b) e =
  read_fields setter b (setter (fst kv) (snd kv) e).
Proof.
  intros (Hl & Hn & Hr). unfold encode_field. rewrite <- !app_assoc.
  rewrite read_fields_nonsentinel by assumption.
  rewrite sunpack_pack by exact Hr. rewrite read_app. reflexivity.
Qed.

Lemma read_fields_framed setter recs rest e :
  Forall wf_field recs ->
  read_fields setter (encode_fields recs ++ "000"%byte :: rest) e =
  Ok (apply_fields setter recs e, rest).
Proof.
  intros H. revert e. induction H as [|kv recs Hkv _ IH]; intros e.
  - apply read_fields_sentinel.
  - unfold encode_fields. cbn [map concat]. rewrite <- app_assoc.
    rewrite read_fields_step by exact Hkv. apply IH.
Qed.

Lemma read_fields_nil setter e : read_fields setter [] e = Raise FormatError.
Proof. rewrite read_fields_eq. reflexivity. Qed.

Lemma read_fields_inv setter b e e' rest :
  read_fields setter b e = Ok (e', rest) ->
  exists recs, Forall wf_field recs /\
    b = encode_fields recs ++ "000"%byte :: rest /\
    e' = apply_fields setter recs e.
Proof.
  remember (length b) as m eqn:Hm. revert b e Hm.
  induction m as [m IH] using lt_wf_ind. intros b e Hm.
  rewrite read_fields_eq.
  destruct (bytes_eq_dec (fst (read s.BL b)) ["000"%byte]) as [E|E].
  - intros H. exists []. split; [constructor|].
    assert (e' = e) by (injection H; auto).
    assert (Hrest : snd (read s.BL b) = rest) by (injection H; auto).
    subst e'. split; [|reflexivity].
    change (b = ["000"%byte] ++ rest). rewrite <- Hrest, <- E.
    symmetry. apply firstn_skipn.
  - destruct (s.sunpack (snd (read s.BL b))) as [[n b2]|x] eqn:Hs;
      [|discriminate].
    intros H. pose proof (sunpack_rest _ Hs) as Hlen.
    apply sunpack_inv in Hs. destruct Hs as [Hb1 Hn].
    pose proof (read_fields_rest _ _ _ H) as Hpos.
    unfold read in *. cbn [fst snd] in *.
    rewrite length_skipn in Hpos, Hlen.
    assert (Hid : length (firstn s.BL b) = s.BL).
    { rewrite length_firstn. unfold s.BL, s.L in *. lia. }
    assert (Hv : length (firstn n b2) = n) by (rewrite length_firstn; lia).
    assert (Hlt : length (skipn n b2) < m).
    { rewrite length_skipn. unfold s.L, s.BL in *. lia. }
    destruct (IH _ Hlt _ _ eq_refl H) as (recs & Hwf & Hb3 & He').
    exists ((firstn s.BL b, firstn n b2) :: recs). split; [|split].
    + constructor; [|exact Hwf]. unfold wf_field. cbn [fst snd].
      rewrite Hv. auto.
    + unfold encode_fields. cbn [map concat]. fold (encode_fields recs).
      unfold encode_field. cbn [fst snd]. rewrite Hv, <- !app_assoc, <- Hb3.
      rewrite (firstn_skipn n b2), <- Hb1. symmetry. apply firstn_skipn.
    + exact He'.
Qed.

Lemma read_fields_raise setter b e x :
  read_fields setter b e = Raise x -> x = FormatError.
Proof.
  remember (length b) as m eqn:Hm. revert b e Hm.
  induction m as [m IH] using lt_wf_ind. intros b e Hm.
  rewrite read_fields_eq.
  destruct (bytes_eq_dec (fst (read s.BL b)) ["000"%byte]) as [E|E];
    [discriminate|].
  destruct (s.sunpack (snd (read s.BL b))) as [[n b2]|y] eqn:Hs.
  - apply sunpack_rest in Hs. unfold read in *. cbn [fst snd] in *.
    rewrite length_skipn in Hs.
    apply (IH (length (skipn n b2))); [|reflexivity].
    rewrite length_skipn. unfold s.L in Hs. lia.
  - intros H. injection H as <-. revert Hs. unfold s.sunpack.
    destruct (read s.L (snd (read s.BL b))) as [raw r].
    destruct (length raw =? s.L); [discriminate|]. intros H. injection H; auto.
Qed.

Lemma sunpack_short raw : length raw < s.L -> s.sunpack raw = Raise FormatError.
Proof.
  intros H. unfold s.sunpack, read.
  destruct (Nat.eqb_spec (length (firstn s.L raw)) s.L) as [E|E];
    [|reflexivity].
  rewrite length_firstn in E. lia.
Qed.

Lemma read_fields_truncated setter b e :
  truncated b -> read_fields setter b e = Raise FormatError.
Proof.
  intros H. revert e.
  induction H as [|ident raw Hl Hn Hr|ident n value Hl Hn Hr Hv|kv b Hkv _ IH];
    intros e.
  - apply read_fields_nil.
  - rewrite read_fields_nonsentinel by assumption.
    rewrite sunpack_short by exact Hr. reflexivity.
  - rewrite read_fields_nonsentinel by assumption.
    rewrite sunpack_pack by exact Hr. unfold read. cbn [fst snd].
    rewrite skipn_all2 by lia. apply read_fields_nil.
  - rewrite read_fields_step by exact Hkv. apply IH.
Qed.

(** Conversely every buffer on which the loop raises is a truncated one. *)
Lemma read_fields_raise_truncated setter b e x :
  read_fields setter b e = Raise x -> truncated b.
Proof.
  remember (length b) as m eqn:Hm. revert b e Hm.
  induction m as [m IH] using lt_wf_ind. intros b e Hm.
  rewrite read_fields_eq.
  destruct (bytes_eq_dec (fst (read s.BL b)) ["000"%byte]) as [E|E];
    [discriminate|].
  destruct b as [|c b]; [intros _; constructor|].
  cbn [read s.BL firstn skipn fst snd] in *.
  destruct (s.sunpack b) as [[n b2]|y] eqn:Hs.
  - intros H. pose proof (sunpack_rest _ Hs) as Hlen.
    apply sunpack_inv in Hs. destruct Hs as [-> Hn].
    destruct (Nat.lt_ge_cases (length b2) n) as [Hlt|Hge].
    + change (truncated ([c] ++ s.pack n ++ b2)).
      apply trunc_value; auto.
    + rewrite <- (firstn_skipn n b2).
      assert (Hv : length (firstn n b2) = n) by (rewrite length_firstn; lia).
      replace (c :: s.pack n ++ firstn n b2 ++ skipn n b2)
        with (encode_field ([c], firstn n b2) ++ skipn n b2).
      * apply trunc_field.
        -- unfold wf_field. cbn [fst snd]. rewrite Hv. auto.
        -- apply (IH (length (skipn n b2))) with (e := setter [c] (firstn n b2) e);
             [|reflexivity|exact H].
           subst m. cbn [length]. rewrite length_skipn. lia.
      * unfold encode_field. cbn [fst snd]. rewrite Hv, <- !app_assoc.
        reflexivity.
  - intros _. change (truncated ([c] ++ b)).
    apply trunc_length; auto.
    destruct (Nat.lt_ge_cases (length b) s.L) as [Hlt|Hge]; [exact Hlt|].
    exfalso. revert Hs. unfold s.sunpack, read.
    rewrite length_firstn, Nat.min_l by exact Hge. rewrite Nat.eqb_refl.
    discriminate.
Qed.

(** ** Properties of the field codec *)

(** The field loop returns exactly on the buffers made of complete fields
    followed by the sentinel, and hands each field to the setter in wire
    order. *)
Lemma read_fields_characterized setter b e e' rest :
  read_fields setter b e = Ok (e', rest) <->
  exists recs, Forall wf_field recs /\
    b = encode_fields recs ++ "000"%byte :: rest /\
    e' = apply_fields setter recs e.
Proof.
  split.
  - apply read_fields_inv.
  - intros (recs & Hwf & -> & ->). apply read_fields_framed. exact Hwf.
Qed.

(** C1: a field area that ends before its sentinel, whether at an
    identifier, inside a length or inside a value shorter than its declared
    length, makes [from_entry] and the field loop of [gather] raise
    FormatError; so does a tag read that returns some bytes but fewer than
    [ds ()].  The error is the one of [s.sunpack] on the exhausted stream:
    the reads of [BytesIO] themselves never fail. *)
Theorem truncated_raises_FormatError setter t st e b tag :
  truncated b -> tag <> [] -> length tag <= ds (ents_head (self st)) ->
  read_fields setter b e = Raise FormatError /\
  from_entry e b = Raise FormatError /\
  (length tag = ds (ents_head (self st)) ->
   gather_loop t (tag ++ b) st = (bump st, Raise FormatError)) /\
  (length tag < ds (ents_head (self st)) ->
   gather_loop t tag st = (bump st, Raise FormatError)).
Proof.
  intros Hb Htag Hlen. split; [|split; [|split]].
  - apply read_fields_truncated, Hb.
  - unfold from_entry. rewrite read_fields_truncated by exact Hb. reflexivity.
  - intros Heq. rewrite gather_loop_eq, <- Heq, read_app. cbn [fst snd].
    destruct tag as [|h0 h]; [contradiction|].
    rewrite read_fields_truncated by exact Hb. reflexivity.
  - intros Hlt. rewrite gather_loop_eq. unfold read. cbn [fst snd].
    rewrite firstn_all2, skipn_all2 by lia.
    destruct tag as [|h0 h]; [contradiction|].
    rewrite read_fields_nil. reflexivity.
Qed.

(** ** The two gates and the collection *)

Lemma revalidate_Ok e e1 : revalidate e = Ok e1 -> e1 = e /\ hash_ok e = true.
Proof.
  unfold revalidate. destruct (hash_ok e); cbn [negb]; [|discriminate].
  intros H. injection H as <-. auto.
Qed.

Lemma validate_struct_Ok e e2 : validate_struct e = Ok e2 -> e2 = e.
Proof.
  unfold validate_struct. destruct (cls e).
  - intros H. injection H as <-. reflexivity.
  - destruct (negb _); [discriminate|]. intros H. injection H as <-. reflexivity.
Qed.

Lemma gates_Ok e e2 : gates e = Ok e2 -> e2 = e /\ gates_ok e.
Proof.
  unfold gates, bind. destruct (revalidate e) as [e1|x] eqn:Hr; [|discriminate].
  apply revalidate_Ok in Hr. destruct Hr as [-> Hh]. intros Hv.
  pose proof (validate_struct_Ok _ Hv) as ->. repeat split; assumption.
Qed.

Lemma gates_ok_Ok e : gates_ok e -> gates e = Ok e.
Proof.
  intros [Hh Hv]. unfold gates, revalidate. rewrite Hh. exact Hv.
Qed.

(** The integrity gate comes first: a bad tag is reported whatever the
    structure. *)
Lemma gates_bad_hash e :
  hash_ok e = false ->
  gates e = Raise (DataIntegrityError (entry_id e) (ehash e)).
Proof. intros H. unfold gates, revalidate. rewrite H. reflexivity. Qed.

Lemma add_entry_gates e c :
  add_entry e c =
  match gates e with
  | Ok e2 => (append e2 c, Ok tt)
  | Raise x => (c, Raise x)
  end.
Proof.
  unfold add_entry, gates, bind. destruct (revalidate e); reflexivity.
Qed.

(** One turn of the loop of [gather], with the two gates folded. *)
Lemma gather_loop_gates t b st :
  gather_loop t b st =
  match fst (read (ds (ents_head (self st))) b) with
  | [] => (st, Ok tt)
  | h0 :: h =>
      match read_fields set_field_raw (snd (read (ds (ents_head (self st))) b))
              (fst (init t (counter st) (ents_head (self st)) (h0 :: h) None))
      with
      | Raise x => (bump st, Raise x)
      | Ok (e, b2) =>
          match gates e with
          | Raise x => (bump st, Raise x)
          | Ok e2 => gather_loop t b2 (admit_entry e2 st)
          end
      end
  end.
Proof.
  rewrite gather_loop_eq.
  destruct (fst (read (ds (ents_head (self st))) b)); [reflexivity|].
  destruct (read_fields _ _ _) as [[e b2]|x]; [|reflexivity].
  unfold gates, bind. destruct (revalidate e); reflexivity.
Qed.

(** Whatever the outcome, the loop only appends, and only entries that
    passed both gates. *)
Lemma gather_loop_admits t b st st' r :
  gather_loop t b st = (st', r) ->
  exists adm, ents (self st') = ents (self st) ++ adm /\ Forall gates_ok adm.
Proof.
  remember (length b) as m eqn:Hm. revert b st Hm.
  induction m as [m IH] using lt_wf_ind. intros b st Hm.
  rewrite gather_loop_gates.
  destruct (fst (read (ds (ents_head (self st))) b)) as [|h0 h] eqn:Htag.
  - intros H. injection H as <- _. exists []. rewrite app_nil_r. auto.
  - destruct (read_fields _ _ _) as [[e b2]|x] eqn:Hf.
    + destruct (gates e) as [e2|x] eqn:Hg.
      * intros H. apply gates_Ok in Hg. destruct Hg as [-> Hok].
        pose proof (read_fields_rest _ _ _ Hf) as Hlt.
        unfold read in Hlt. cbn [snd] in Hlt. rewrite length_skipn in Hlt.
        assert (Hlt' : length b2 < m) by lia.
        destruct (IH _ Hlt' _ _ eq_refl H) as (adm & Hents & Hadm).
        exists (e :: adm). split; [|constructor; assumption].
        rewrite Hents. cbn [admit_entry self append ents].
        rewrite <- app_assoc. reflexivity.
      * intros H. injection H as <- _. exists []. rewrite app_nil_r. auto.
    + intros H. injection H as <- _. exists []. rewrite app_nil_r. auto.
Qed.

Lemma gather_admits t st st' r :
  gather t st = (st', r) ->
  exists adm, ents (self st') = ents (self st) ++ adm /\ Forall gates_ok adm.
Proof.
  unfold gather. destruct (decrypt (ents_head (self st))) as [hd|x].
  - cbv zeta. destruct (bytes_eq_dec (entries hd) []).
    + intros H. injection H as <- _. exists []. rewrite app_nil_r. auto.
    + intros H. apply gather_loop_admits in H. exact H.
  - intros H. injection H as <- _. exists []. rewrite app_nil_r. auto.
Qed.

Lemma gather_loop_next t b st :
  gather_loop t b st =
  match next_entry t st b with
  | None => (st, Ok tt)
  | Some (Raise x) => (bump st, Raise x)
  | Some (Ok (e, b2)) =>
      match gates e with
      | Raise x => (bump st, Raise x)
      | Ok e2 => gather_loop t b2 (admit_entry e2 st)
      end
  end.
Proof.
  rewrite gather_loop_gates. unfold next_entry.
  destruct (fst (read (ds (ents_head (self st))) b)); reflexivity.
Qed.

Lemma admits_gather_loop t b st es b' st' :
  admits t b st es b' st' ->
  gather_loop t b st = gather_loop t b' st' /\
  ents (self st') = ents (self st) ++ es /\
  ents_head (self st') = ents_head (self st) /\
  Forall gates_ok es.
Proof.
  induction 1 as [b st|b st e b2 es b' st' Hn Hg _ IH].
  - rewrite app_nil_r. auto.
  - destruct IH as (Hl & He & Hh & Hok). rewrite gather_loop_next, Hn, Hg.
    split; [exact Hl|]. split; [|split].
    + rewrite He. cbn [admit_entry self append ents]. rewrite <- app_assoc.
      reflexivity.
    + rewrite Hh. reflexivity.
    + constructor; [|exact Hok]. apply gates_Ok in Hg. apply Hg.
Qed.

Lemma next_entry_nonempty t st b r : next_entry t st b = Some r -> b <> [].
Proof.
  intros H ->. unfold next_entry, read in H. rewrite firstn_nil in H.
  discriminate.
Qed.

(** C3 (as amended): [gather] stops at the first entry of the blob that
    fails a gate and raises its error; neither that entry nor anything after
    it is admitted, while the entries before it, which passed both gates,
    have been appended and stay in the collection.  A failed [add_entry]
    leaves the collection as it was. *)
Theorem gather_fail_fast t st0 hd es b' st' e b2 x cand c c' z :
  decrypt (ents_head (self st0)) = Ok hd ->
  admits t (entries hd)
    {| counter := counter st0; self := set_head hd (self st0) |} es b' st' ->
  next_entry t st' b' = Some (Ok (e, b2)) ->
  gates e = Raise x ->
  add_entry cand c = (c', Raise z) ->
  gather t st0 = (bump st', Raise x) /\
  ents (self (bump st')) = ents (self st0) ++ es /\
  Forall gates_ok es /\
  c' = c.
Proof.
  intros Hd Ha Hn Hg Hadd.
  pose proof (admits_gather_loop Ha) as (Hl & He & _ & Hok).
  assert (Hne : entries hd <> []).
  { inversion Ha; subst.
    - eapply next_entry_nonempty; eassumption.
    - eapply next_entry_nonempty; eassumption. }
  split; [|split; [|split]].
  - unfold gather. rewrite Hd. cbv zeta.
    destruct (bytes_eq_dec (entries hd) []); [contradiction|].
    rewrite Hl, gather_loop_next, Hn, Hg. reflexivity.
  - exact He.
  - exact Hok.
  - rewrite add_entry_gates in Hadd. destruct (gates cand).
    + discriminate.
    + injection Hadd as <- _. reflexivity.
Qed.

(** The error of the gates tells which gate failed: the integrity gate
    is asked first, the structural gate only for an entry whose tag
    verified. *)
Lemma gates_Raise e x :
  gates e = Raise x ->
  hash_ok e = false /\ x = DataIntegrityError (entry_id e) (ehash e) \/
  hash_ok e = true /\ validate_struct e = Raise x.
Proof.
  unfold gates, revalidate. destruct (hash_ok e); cbn [negb bind].
  - intros H. right. auto.
  - intros H. injection H as <-. left. auto.
Qed.

(** A failing run of the loop of [gather]: some entries were admitted,
    then either the next record did not parse or its entry failed a
    gate. *)
Lemma gather_loop_raise t b st st' x :
  gather_loop t b st = (st', Raise x) ->
  exists es b' s',
    admits t b st es b' s' /\ st' = bump s' /\
    (next_entry t s' b' = Some (Raise x) \/
     exists e b2, next_entry t s' b' = Some (Ok (e, b2)) /\ gates e = Raise x).
Proof.
  remember (length b) as m eqn:Hm. revert b st Hm.
  induction m as [m IH] using lt_wf_ind. intros b st Hm.
  rewrite gather_loop_next.
  destruct (next_entry t st b) as [[[e b2]|y]|] eqn:Hn.
  - destruct (gates e) as [e2|y] eqn:Hg.
    + intros H. pose proof (gates_Ok _ Hg) as [-> _].
      assert (Hlt : length b2 < m).
      { unfold next_entry in Hn.
        destruct (fst (read (ds (ents_head (self st))) b)); [discriminate|].
        injection Hn as Hn. apply read_fields_rest in Hn.
        unfold read in Hn. cbn [snd] in Hn. rewrite length_skipn in Hn. lia. }
      destruct (IH _ Hlt _ _ eq_refl H) as (es & b' & s' & Ha & Hs & Hx).
      exists (e :: es), b', s'. split; [|auto].
      eapply admits_cons; eassumption.
    + intros H. injection H as <- <-. exists [], b, st.
      split; [constructor|]. split; [reflexivity|]. right. eauto.
  - intros H. injection H as <- <-. exists [], b, st.
    split; [constructor|]. split; [reflexivity|]. left. exact Hn.
  - discriminate.
Qed.

(** C4: every entry [gather] or [add_entry] appends has just passed
    [revalidate] and then [validate_struct]; nothing else is appended, so a
    collection of entries that passed both gates stays one.  Both paths
    ask the integrity gate first: [add_entry] and every turn of the loop
    of [gather] report a bad tag as DataIntegrityError whatever the
    structure, and report the error of [validate_struct] only for an entry
    whose tag verified; an error of [gather] is the one of [decrypt], of
    the parse of the next record, or of the gates in that order on the
    first entry that fails one. *)
Theorem admission_gates t st st' r cand c c' r' :
  gather t st = (st', r) ->
  add_entry cand c = (c', r') ->
  (exists adm, ents (self st') = ents (self st) ++ adm /\
     Forall gates_ok adm) /\
  (Forall gates_ok (ents (self st)) -> Forall gates_ok (ents (self st'))) /\
  (r' = Ok tt /\ revalidate cand = Ok cand /\ validate_struct cand = Ok cand /\
     ents c' = ents c ++ [cand]
   \/ c' = c /\ exists x, r' = Raise x /\ gates cand = Raise x) /\
  (Forall gates_ok (ents c) -> Forall gates_ok (ents c')) /\
  (hash_ok cand = false ->
     r' = Raise (DataIntegrityError (entry_id cand) (ehash cand))) /\
  (forall k, r' = Raise (StructureError k) -> hash_ok cand = true) /\
  (forall b s e b2,
     next_entry t s b = Some (Ok (e, b2)) ->
     gather_loop t b s =
     match revalidate e with
     | Raise x => (bump s, Raise x)
     | Ok e1 =>
         match validate_struct e1 with
         | Raise x => (bump s, Raise x)
         | Ok e2 => gather_loop t b2 (admit_entry e2 s)
         end
     end) /\
  (forall b s e b2,
     next_entry t s b = Some (Ok (e, b2)) -> hash_ok e = false ->
     gather_loop t b s =
     (bump s, Raise (DataIntegrityError (entry_id e) (ehash e)))) /\
  (forall x,
     r = Raise x ->
     decrypt (ents_head (self st)) = Raise x \/
     exists hd es b' s',
       decrypt (ents_head (self st)) = Ok hd /\
       admits t (entries hd)
         {| counter := counter st; self := set_head hd (self st) |}
         es b' s' /\
       st' = bump s' /\
       (next_entry t s' b' = Some (Raise x) \/
        exists e b2,
          next_entry t s' b' = Some (Ok (e, b2)) /\
          (hash_ok e = false /\
           x = DataIntegrityError (entry_id e) (ehash e) \/
           hash_ok e = true /\ validate_struct e = Raise x))).
Proof.
  intros Hg Ha. pose proof (gather_admits _ _ Hg) as (adm & Hents & Hadm).
  rewrite add_entry_gates in Ha.
  assert (Hstep : forall b s e b2,
            next_entry t s b = Some (Ok (e, b2)) ->
            gather_loop t b s =
            match revalidate e with
            | Raise x => (bump s, Raise x)
            | Ok e1 =>
                match validate_struct e1 with
                | Raise x => (bump s, Raise x)
                | Ok e2 => gather_loop t b2 (admit_entry e2 s)
                end
            end).
  { intros b s e b2 Hn. rewrite gather_loop_next, Hn. unfold gates, bind.
    destruct (revalidate e); reflexivity. }
  assert (Hbad : forall b s e b2,
            next_entry t s b = Some (Ok (e, b2)) -> hash_ok e = false ->
            gather_loop t b s =
            (bump s, Raise (DataIntegrityError (entry_id e) (ehash e)))).
  { intros b s e b2 Hn Hh. rewrite (Hstep _ _ _ _ Hn). unfold revalidate.
    rewrite Hh. reflexivity. }
  assert (Herr : forall x,
     r = Raise x ->
     decrypt (ents_head (self st)) = Raise x \/
     exists hd es b' s',
       decrypt (ents_head (self st)) = Ok hd /\
       admits t (entries hd)
         {| counter := counter st; self := set_head hd (self st) |}
         es b' s' /\
       st' = bump s' /\
       (next_entry t s' b' = Some (Raise x) \/
        exists e b2,
          next_entry t s' b' = Some (Ok (e, b2)) /\
          (hash_ok e = false /\
           x = DataIntegrityError (entry_id e) (ehash e) \/
           hash_ok e = true /\ validate_struct e = Raise x))).
  { intros x ->. revert Hg. unfold gather.
    destruct (decrypt (ents_head (self st))) as [hd|y].
    - cbv zeta. destruct (bytes_eq_dec (entries hd) []); [discriminate|].
      intros Hl. right. apply gather_loop_raise in Hl.
      destruct Hl as (es & b' & s' & Hadm' & Hs & Hx).
      exists hd, es, b', s'. split; [reflexivity|]. split; [exact Hadm'|].
      split; [exact Hs|]. destruct Hx as [Hx|(e & b2 & Hn & Hgt)].
      + left. exact Hx.
      + right. exists e, b2. split; [exact Hn|]. apply gates_Raise. exact Hgt.
    - intros H. injection H as _ <-. left. reflexivity. }
  cut ((exists adm0, ents (self st') = ents (self st) ++ adm0 /\
          Forall gates_ok adm0) /\
       (Forall gates_ok (ents (self st)) -> Forall gates_ok (ents (self st'))) /\
       (r' = Ok tt /\ revalidate cand = Ok cand /\
          validate_struct cand = Ok cand /\ ents c' = ents c ++ [cand]
        \/ c' = c /\ exists x, r' = Raise x /\ gates cand = Raise x) /\
       (Forall gates_ok (ents c) -> Forall gates_ok (ents c')) /\
       (hash_ok cand = false ->
          r' = Raise (DataIntegrityError (entry_id cand) (ehash cand))) /\
       (forall k, r' = Raise (StructureError k) -> hash_ok cand = true)).
  { intros (H1 & H2 & H3 & H4 & H5 & H6). repeat (split; [assumption|]).
    exact Herr. }
  clear Hstep Hbad Herr.
  split; [exists adm; auto|]. split.
  { intros H. rewrite Hents. apply Forall_app. auto. }
  destruct (gates cand) as [e2|x] eqn:Hc.
  - apply gates_Ok in Hc. destruct Hc as [-> [Hh Hv]].
    injection Ha as <- <-. cbn [append ents].
    split; [|split; [|split]].
    + left. unfold revalidate. rewrite Hh. auto.
    + intros H. apply Forall_app. split; [exact H|]. constructor; [|constructor].
      split; assumption.
    + intros H. congruence.
    + intros k H. discriminate.
  - injection Ha as <- <-. split; [|split; [|split]].
    + right. split; [reflexivity|]. exists x. auto.
    + auto.
    + intros H. rewrite (gates_bad_hash H) in Hc. congruence.
    + intros k H. injection H as ->. unfold gates, revalidate in Hc.
      destruct (hash_ok cand); [reflexivity|]. discriminate.
Qed.

(** ** Reading and writing fields *)

(** C10: reading a name that is not in the field store raises KeyError,
    through [get_field_raw] and through [get_field] of either class (the
    encrypted read looks the raw value up before it calls the cipher); it is
    none of the four error kinds of the record layer. *)
Theorem absent_field_KeyError e name :
  ~ In name (dict_keys (fields e)) ->
  get_field_raw name e = Raise (KeyError name) /\
  get_field name e = Raise (KeyError name) /\
  getitem name e = Raise (KeyError name) /\
  KeyError name <> FormatError /\
  KeyError name <> DecryptionError /\
  (forall k, KeyError name <> StructureError k) /\
  (forall k h, KeyError name <> DataIntegrityError k h).
Proof.
  intros H. apply dict_get_None in H.
  assert (Hraw : get_field_raw name e = Raise (KeyError name))
    by (unfold get_field_raw; rewrite H; reflexivity).
  assert (Hget : get_field name e = Raise (KeyError name)).
  { unfold get_field, _get_crypt. rewrite Hraw. cbn [bind].
    destruct (cls e); [reflexivity|].
    destruct (in_dec bytes_eq_dec name encrypted_fields); reflexivity. }
  repeat split; try assumption; try discriminate.
Qed.

Lemma set_field_encrypted e name X :
  cls e = PdbPwdEntry -> In name encrypted_fields ->
  set_field name X e =
  set_field_raw name
    (encrypt_secure X (password (head e)) (salt (head e)) (hash_id (head e))
       (hash_salt_len (head e)) (sec_crypto_passes (head e))
       (kdf_passes (head e)) (zstd_comp_lvl (head e))) e.
Proof.
  intros Hc Hin. unfold set_field, _set_crypt. rewrite Hc.
  destruct (in_dec bytes_eq_dec name encrypted_fields); [reflexivity|contradiction].
Qed.

(** C5: on a password entry, for [name] one of [b"u"], [b"p"]:
    [get_field name] after [set_field name X] returns [X], for every [X],
    when the cipher inverts; the raw store then holds the ciphertext of [X]
    under the parameters of the container, which differs from a non-empty
    [X] when the cipher hides. *)
Theorem selective_encryption e name X :
  cls e = PdbPwdEntry -> In name encrypted_fields ->
  cipher_inverts -> cipher_hides ->
  get_field name (set_field name X e) = Ok X /\
  get_field_raw name (set_field name X e) =
    Ok (encrypt_secure X (password (head e)) (salt (head e)) (hash_id (head e))
          (hash_salt_len (head e)) (sec_crypto_passes (head e))
          (kdf_passes (head e)) (zstd_comp_lvl (head e))) /\
  (X <> [] -> get_field_raw name (set_field name X e) <> Ok X).
Proof.
  intros Hc Hin Hinv Hhide. rewrite set_field_encrypted by assumption.
  assert (Hraw : forall v, get_field_raw name (set_field_raw name v e) = Ok v).
  { intros v. unfold get_field_raw, set_field_raw. cbn [with_fields fields].
    rewrite dict_get_set_same. reflexivity. }
  split; [|split].
  - unfold get_field. cbn [set_field_raw with_fields cls]. rewrite Hc.
    destruct (in_dec bytes_eq_dec name encrypted_fields); [|contradiction].
    unfold _get_crypt. rewrite Hraw. cbn [bind set_field_raw with_fields head].
    apply Hinv.
  - apply Hraw.
  - intros HX. rewrite Hraw. intros H. injection H as H.
    eapply Hhide; eassumption.
Qed.

(** C7: on a password entry [validate_struct] raises
    [StructureError entry_id] exactly when one of [b"n"], [b"u"], [b"p"],
    [b"r"] is not a key of the field store, and returns the entry exactly
    when all four are keys, whatever their values and whatever other keys
    there are. *)
Theorem validate_struct_password e :
  cls e = PdbPwdEntry ->
  all_fields = [["n"%byte]; ["u"%byte]; ["p"%byte]; ["r"%byte]] /\
  (validate_struct e = Raise (StructureError (entry_id e)) <->
   exists name, In name all_fields /\ ~ In name (dict_keys (fields e))) /\
  (validate_struct e = Ok e <->
   forall name, In name all_fields -> In name (dict_keys (fields e))).
Proof.
  intros Hc. split; [reflexivity|]. unfold validate_struct. rewrite Hc.
  destruct (forallb (fun field => dict_mem field (fields e)) all_fields) eqn:E;
    cbn [negb].
  - rewrite forallb_forall in E. split; split.
    + discriminate.
    + intros (name & Hin & Hno). apply E in Hin. apply dict_mem_true in Hin.
      contradiction.
    + intros _ name Hin. apply dict_mem_true, E, Hin.
    + reflexivity.
  - assert (Hex : exists name, In name all_fields /\
                    ~ In name (dict_keys (fields e))).
    { destruct (forallb_forall (fun field => dict_mem field (fields e))
                  all_fields) as [_ Hall].
      destruct (Forall_Exists_dec (fun name => In name (dict_keys (fields e)))
                  (fun name => in_dec bytes_eq_dec name (dict_keys (fields e)))
                  all_fields) as [Hf|Hx].
      - rewrite Hall in E; [discriminate|]. intros name Hin.
        apply dict_mem_true. rewrite Forall_forall in Hf. apply Hf, Hin.
      - apply Exists_exists in Hx. exact Hx. }
    split; split.
    + intros _. exact Hex.
    + reflexivity.
    + discriminate.
    + intros Hall. destruct Hex as (name & Hin & Hno). elim Hno.
      apply Hall, Hin.
Qed.

(** An error of [head.decrypt ()] leaves [gather] before it looks at the
    blob. *)
Lemma gather_decrypt_raises t st x :
  decrypt (ents_head (self st)) = Raise x -> gather t st = (st, Raise x).
Proof. intros H. unfold gather. rewrite H. reflexivity. Qed.

(** C8: when the blob of the decrypted container is empty, [gather]
    returns without error and appends nothing, so a fresh collection stays
    empty; the blob that is tested is the one of the header that [decrypt]
    returned. *)
Theorem gather_empty_blob t st hd :
  decrypt (ents_head (self st)) = Ok hd ->
  entries hd = [] ->
  gather t st =
    ({| counter := counter st; self := set_head hd (self st) |}, Ok tt) /\
  ents (self (fst (gather t st))) = ents (self st) /\
  (ents (self st) = [] -> ents (self (fst (gather t st))) = []).
Proof.
  intros Hd He.
  assert (Hg : gather t st =
    ({| counter := counter st; self := set_head hd (self st) |}, Ok tt)).
  { unfold gather. rewrite Hd. cbv zeta. rewrite He.
    destruct (bytes_eq_dec [] []); [reflexivity|contradiction]. }
  rewrite Hg. cbn [fst self set_head ents]. auto.
Qed.

(** ** The two parse paths and the raw store *)

Lemma with_fields_same e : with_fields (fields e) e = e.
Proof. destruct e. reflexivity. Qed.

Lemma set_field_stored name value e :
  set_field name value e = set_field_raw name (stored e name value) e.
Proof.
  unfold set_field, stored, _set_crypt. destruct (cls e); [reflexivity|].
  destruct (in_dec bytes_eq_dec name encrypted_fields); reflexivity.
Qed.

Lemma apply_setitem recs e :
  apply_fields setitem recs e =
  with_fields (store_all (stored e) recs (fields e)) e.
Proof.
  revert e. induction recs as [|[k v] recs IH]; intros e.
  - cbn. symmetry. apply with_fields_same.
  - unfold apply_fields, store_all in *. cbn [fold_left fst snd].
    unfold setitem at 2. rewrite set_field_stored, IH. reflexivity.
Qed.

Lemma apply_set_field_raw recs e :
  apply_fields set_field_raw recs e =
  with_fields (store_all (fun _ v => v) recs (fields e)) e.
Proof.
  revert e. induction recs as [|[k v] recs IH]; intros e.
  - cbn. symmetry. apply with_fields_same.
  - unfold apply_fields, store_all in *. cbn [fold_left fst snd].
    rewrite IH. reflexivity.
Qed.

(** C2: decoding a field area, in [from_entry] and in the field loop of
    [gather], stops exactly at the first identifier that equals the
    all-zero sentinel of [s.BL] bytes: it returns exactly on the buffers
    made of complete fields (an identifier that is not the sentinel, the
    [s.L]-byte length, that many value bytes) followed by the sentinel,
    and leaves the stream just after the sentinel, which is not stored.
    Every field is recorded in the field store of the entry as a
    name/value pair, in wire order: by [from_entry] through [set_field]
    (the bytes [stored] gives for them), by [gather] through
    [set_field_raw] (the wire bytes), into the entry [gather] has just
    constructed, which then goes to the gates while the loop goes on
    after the sentinel.  For distinct names the store is the list of the
    pairs on the wire; a name reads back the value of its last
    occurrence. *)
Theorem field_area_decoding t st e b e' rest :
  (from_entry e b = Ok e' <->
   exists recs rest',
     Forall wf_field recs /\
     b = encode_fields recs ++ "000"%byte :: rest' /\
     e' = with_fields (store_all (stored e) recs (fields e)) e) /\
  (read_fields set_field_raw b e = Ok (e', rest) <->
   exists recs,
     Forall wf_field recs /\
     b = encode_fields recs ++ "000"%byte :: rest /\
     e' = with_fields (store_all (fun _ value => value) recs (fields e)) e) /\
  (forall tag recs,
     tag <> [] -> length tag = ds (ents_head (self st)) ->
     Forall wf_field recs ->
     gather_loop t (tag ++ encode_fields recs ++ "000"%byte :: rest) st =
     match revalidate
             {| cls := t; entry_id := counter st;
                head := ents_head (self st); ehash := tag;
                fields := store_all (fun _ value => value) recs [] |}
     with
     | Raise x => (bump st, Raise x)
     | Ok e1 =>
         match validate_struct e1 with
         | Raise x => (bump st, Raise x)
         | Ok e2 => gather_loop t rest (admit_entry e2 st)
         end
     end) /\
  (forall recs,
     NoDup (map fst recs) -> store_all (fun _ value => value) recs [] = recs) /\
  (forall tr pre k v post d,
     ~ In k (map fst post) ->
     dict_get k (store_all tr (pre ++ (k, v) :: post) d) = Some (tr k v)) /\
  (cls e = PdbRawEntry -> forall k v, stored e k v = v).
Proof.
  split; [|split; [|split; [|split; [|split]]]].
  - unfold from_entry. split.
    + destruct (read_fields setitem b e) as [[e1 rest']|x] eqn:Hr;
        [|discriminate].
      cbn [bind fst]. intros H. injection H as <-.
      apply read_fields_inv in Hr. destruct Hr as (recs & Hwf & Hb & ->).
      exists recs, rest'. rewrite apply_setitem. auto.
    + intros (recs & rest' & Hwf & -> & ->).
      rewrite read_fields_framed by exact Hwf. cbn [bind fst].
      rewrite apply_setitem. reflexivity.
  - split.
    + intros Hr. apply read_fields_inv in Hr.
      destruct Hr as (recs & Hwf & Hb & ->). exists recs.
      rewrite apply_set_field_raw. auto.
    + intros (recs & Hwf & -> & ->).
      rewrite read_fields_framed by exact Hwf.
      rewrite apply_set_field_raw. reflexivity.
  - intros tag recs Hne Hlen Hwf.
    rewrite gather_loop_eq, <- Hlen, read_app. cbn [fst snd].
    destruct tag as [|h0 h]; [contradiction|].
    rewrite read_fields_framed by exact Hwf. rewrite apply_set_field_raw.
    reflexivity.
  - intros recs Hnd. apply (store_all_fresh recs []). exact Hnd.
  - intros tr pre k v post d Hpost. apply store_all_get_last. exact Hpost.
  - intros Hc k v. unfold stored. rewrite Hc. reflexivity.
Qed.

(** C9: [from_entry] writes each parsed value with [set_field], so on a
    password entry the raw store of [b"u"] or [b"p"] holds the ciphertext
    of the wire bytes, whereas the field loop of [gather] writes the wire
    bytes themselves with [set_field_raw]; on the same input the two stores
    differ as soon as that ciphertext differs from the wire bytes. *)
Theorem parse_paths_differ e pre name v post rest :
  cls e = PdbPwdEntry -> In name encrypted_fields ->
  Forall wf_field (pre ++ (name, v) :: post) ->
  ~ In name (map fst post) ->
  exists e1 e2,
    from_entry e (encode_fields (pre ++ (name, v) :: post)
                    ++ "000"%byte :: rest) = Ok e1 /\
    read_fields set_field_raw (encode_fields (pre ++ (name, v) :: post)
                                 ++ "000"%byte :: rest) e = Ok (e2, rest) /\
    get_field_raw name e1 =
      Ok (encrypt_secure v (password (head e)) (salt (head e))
            (hash_id (head e)) (hash_salt_len (head e))
            (sec_crypto_passes (head e)) (kdf_passes (head e))
            (zstd_comp_lvl (head e))) /\
    get_field_raw name e2 = Ok v /\
    (encrypt_secure v (password (head e)) (salt (head e))
       (hash_id (head e)) (hash_salt_len (head e))
       (sec_crypto_passes (head e)) (kdf_passes (head e))
       (zstd_comp_lvl (head e)) <> v -> fields e1 <> fields e2).
Proof.
  intros Hc Hin Hwf Hpost.
  exists (apply_fields setitem (pre ++ (name, v) :: post) e),
         (apply_fields set_field_raw (pre ++ (name, v) :: post) e).
  assert (H1 : get_field_raw name
                 (apply_fields setitem (pre ++ (name, v) :: post) e) =
               Ok (stored e name v)).
  { rewrite apply_setitem. unfold get_field_raw. cbn [with_fields fields].
    rewrite store_all_get_last by exact Hpost. reflexivity. }
  assert (H2 : get_field_raw name
                 (apply_fields set_field_raw (pre ++ (name, v) :: post) e) =
               Ok v).
  { rewrite apply_set_field_raw. unfold get_field_raw. cbn [with_fields fields].
    rewrite store_all_get_last by exact Hpost. reflexivity. }
  assert (Hs : stored e name v =
               encrypt_secure v (password (head e)) (salt (head e))
                 (hash_id (head e)) (hash_salt_len (head e))
                 (sec_crypto_passes (head e)) (kdf_passes (head e))
                 (zstd_comp_lvl (head e))).
  { unfold stored. rewrite Hc.
    destruct (in_dec bytes_eq_dec name encrypted_fields);
      [reflexivity|contradiction]. }
  rewrite Hs in H1. repeat split.
  - unfold from_entry. rewrite read_fields_framed by exact Hwf. reflexivity.
  - apply read_fields_framed. exact Hwf.
  - exact H1.
  - exact H2.
  - intros Hne Heq. unfold get_field_raw in H1, H2. rewrite Heq in H1.
    rewrite H2 in H1. injection H1 as H1. apply Hne. symmetry. exact H1.
Qed.

(** C6 (as amended): for a raw entry whose field names are [s.BL] bytes
    wide and differ from the sentinel, and whose values have lengths the
    prefix can hold, parsing [entry] followed by the sentinel with
    [from_entry] on a fresh raw entry gives back exactly its fields, in
    their order.  ([NoDup]: the keys of a dict are distinct.) *)
Theorem raw_roundtrip src fresh :
  cls fresh = PdbRawEntry -> fields fresh = [] ->
  NoDup (dict_keys (fields src)) ->
  Forall wf_field (fields src) ->
  from_entry fresh (entry src ++ ["000"%byte]) =
    Ok (with_fields (fields src) fresh).
Proof.
  intros Hc Hf Hnd Hwf. unfold from_entry. rewrite entry_encode_fields.
  rewrite read_fields_framed by exact Hwf. cbn [bind fst].
  rewrite apply_setitem. f_equal. f_equal. rewrite Hf.
  assert (Hst : stored fresh = fun _ v => v).
  { unfold stored. rewrite Hc. reflexivity. }
  rewrite Hst. apply store_all_fresh. exact Hnd.
Qed.

(** ** Further properties: the field store *)

Lemma dict_keys_set k v d :
  dict_keys (dict_set k v d) =
  if dict_mem k d then dict_keys d else dict_keys d ++ [k].
Proof.
  unfold dict_mem.
  induction d as [|[k' v'] d IH]; cbn [dict_set dict_get dict_keys map fst app].
  - reflexivity.
  - destruct (bytes_eq_dec k' k) as [E|E]; [reflexivity|].
    cbn [dict_keys map fst]. fold (dict_keys (dict_set k v d)). rewrite IH.
    destruct (dict_get k d); reflexivity.
Qed.

Lemma dict_mem_set_same k v d : dict_mem k (dict_set k v d) = true.
Proof. unfold dict_mem. rewrite dict_get_set_same. reflexivity. Qed.

Lemma dict_mem_set_other k k' v d :
  k <> k' -> dict_mem k' (dict_set k v d) = dict_mem k' d.
Proof.
  intros H. unfold dict_mem. rewrite dict_get_set_other by exact H. reflexivity.
Qed.

Lemma dict_mem_set_mono k f v d :
  dict_mem f d = true -> dict_mem f (dict_set k v d) = true.
Proof.
  intros H. destruct (bytes_eq_dec k f) as [->|E].
  - apply dict_mem_set_same.
  - rewrite dict_mem_set_other by exact E. exact H.
Qed.

Lemma get_field_raw_set_same e k v :
  get_field_raw k (set_field_raw k v e) = Ok v.
Proof.
  unfold get_field_raw, set_field_raw. cbn [with_fields fields].
  rewrite dict_get_set_same. reflexivity.
Qed.

Lemma get_field_raw_set_other e k k' v :
  k <> k' -> get_field_raw k' (set_field_raw k v e) = get_field_raw k' e.
Proof.
  intros H. unfold get_field_raw, set_field_raw. cbn [with_fields fields].
  rewrite dict_get_set_other by exact H. reflexivity.
Qed.

Lemma get_field_set_raw_other e k k' v :
  k <> k' -> get_field k' (set_field_raw k v e) = get_field k' e.
Proof.
  intros H. unfold get_field, _get_crypt.
  rewrite get_field_raw_set_other by exact H. reflexivity.
Qed.

Lemma get_field_set_other e k k' v :
  k <> k' -> get_field k' (set_field k v e) = get_field k' e.
Proof.
  intros H. rewrite set_field_stored. apply get_field_set_raw_other, H.
Qed.

Lemma get_field_set_plain e k v :
  cls e = PdbRawEntry \/ ~ In k encrypted_fields ->
  get_field k (set_field k v e) = Ok v /\
  get_field_raw k (set_field k v e) = Ok v.
Proof.
  intros H. rewrite set_field_stored.
  assert (Hs : stored e k v = v).
  { unfold stored. destruct (cls e); [reflexivity|].
    destruct (in_dec bytes_eq_dec k encrypted_fields) as [Hin|_];
      [|reflexivity].
    destruct H as [H|H]; [discriminate|contradiction]. }
  rewrite Hs. split; [|apply get_field_raw_set_same].
  unfold get_field. cbn [set_field_raw with_fields cls].
  destruct (cls e) eqn:Hc; [apply get_field_raw_set_same|].
  destruct (in_dec bytes_eq_dec k encrypted_fields) as [Hin|_];
    [|apply get_field_raw_set_same].
  destruct H as [H|H]; [discriminate|contradiction].
Qed.

Lemma get_field_set_crypt e k v :
  cls e = PdbPwdEntry -> In k encrypted_fields -> cipher_inverts ->
  get_field k (set_field k v e) = Ok v.
Proof.
  intros Hc Hin Hinv. rewrite set_field_encrypted by assumption.
  unfold get_field. cbn [set_field_raw with_fields cls]. rewrite Hc.
  destruct (in_dec bytes_eq_dec k encrypted_fields); [|contradiction].
  unfold _get_crypt. rewrite get_field_raw_set_same.
  cbn [bind set_field_raw with_fields head]. apply Hinv.
Qed.

(** X1: the raw store is a map: a name reads back the value last written
    for it, a write leaves every other name as it was, and a written name
    is contained. *)
Theorem raw_store_lookup e k k' v :
  k <> k' ->
  get_field_raw k (set_field_raw k v e) = Ok v /\
  get_field_raw k' (set_field_raw k v e) = get_field_raw k' e /\
  contains k (set_field_raw k v e) = true /\
  contains k' (set_field_raw k v e) = contains k' e.
Proof.
  intros H. split; [apply get_field_raw_set_same|].
  split; [apply get_field_raw_set_other, H|].
  unfold contains, set_field_raw. cbn [with_fields fields].
  split; [apply dict_mem_set_same|apply dict_mem_set_other, H].
Qed.

(** X2: a raw entry stores every field as given, and a password entry
    every field but [b"u"] and [b"p"]: [get_field] gives back what
    [set_field] was given and the raw store holds the same bytes. *)
Theorem plaintext_fields e name X :
  cls e = PdbRawEntry \/ ~ In name encrypted_fields ->
  get_field name (set_field name X e) = Ok X /\
  get_field_raw name (set_field name X e) = Ok X.
Proof.
  intros H. destruct (@get_field_set_plain e name X H) as [Hget Hraw].
  split; [exact Hget|exact Hraw].
Qed.

(** X3: [set_field] of one name changes no other field, as read by
    [get_field] or [get_field_raw], nor the class, the id, the container
    or the tag of the entry: the tag is stale until [rehash]. *)
Theorem set_field_frame e k k' v :
  k <> k' ->
  get_field k' (set_field k v e) = get_field k' e /\
  get_field_raw k' (set_field k v e) = get_field_raw k' e /\
  cls (set_field k v e) = cls e /\
  entry_id (set_field k v e) = entry_id e /\
  head (set_field k v e) = head e /\
  ehash (set_field k v e) = ehash e.
Proof.
  intros H. split; [apply get_field_set_other, H|].
  rewrite set_field_stored.
  split; [apply get_field_raw_set_other, H|]. repeat split.
Qed.

(** X4: [set_field] never removes or moves a field: a name that is already
    in the store keeps its place, a new name goes last. *)
Theorem set_field_keeps_order e k v :
  dict_keys (fields (set_field k v e)) =
  if contains k e then dict_keys (fields e) else dict_keys (fields e) ++ [k].
Proof.
  rewrite set_field_stored. unfold set_field_raw, contains.
  cbn [with_fields fields]. apply dict_keys_set.
Qed.

(** X5: an entry that passes [validate_struct] still passes it after any
    [set_field]. *)
Theorem validate_struct_stable e k v :
  validate_struct e = Ok e ->
  validate_struct (set_field k v e) = Ok (set_field k v e).
Proof.
  rewrite set_field_stored. unfold validate_struct, set_field_raw.
  cbn [with_fields cls fields]. destruct (cls e); [reflexivity|].
  destruct (forallb (fun field => dict_mem field (fields e)) all_fields) eqn:E;
    cbn [negb]; [|discriminate].
  intros _.
  replace (forallb (fun field => dict_mem field
                      (dict_set k (stored e k v) (fields e))) all_fields)
    with true; [reflexivity|].
  symmetry. rewrite forallb_forall in E |- *. intros f Hf.
  apply dict_mem_set_mono, E, Hf.
Qed.

(** ** Further properties: building and parsing one entry *)

Lemma store_all_map tr recs d :
  store_all tr recs d =
  store_all (fun _ v => v)
    (map (fun kv => (fst kv, tr (fst kv) (snd kv))) recs) d.
Proof.
  revert d. induction recs as [|[k v] recs IH]; intros d; [reflexivity|].
  unfold store_all in *. cbn [map fold_left fst snd]. apply IH.
Qed.

Lemma dict_get_In k v d :
  NoDup (dict_keys d) -> In (k, v) d -> dict_get k d = Some v.
Proof.
  induction d as [|[k' v'] d IH]; intros Hnd Hin; [contradiction|].
  cbn [dict_keys map fst] in Hnd. inversion Hnd as [|? ? Hk Hnd']; subst.
  cbn [dict_get]. destruct Hin as [Heq|Hin].
  - injection Heq as -> ->.
    destruct (bytes_eq_dec k k); [reflexivity|contradiction].
  - destruct (bytes_eq_dec k' k) as [->|E]; [|apply IH; assumption].
    exfalso. apply Hk. change k with (fst (k, v)). apply in_map. exact Hin.
Qed.

Lemma init_apply_fields t c h eh d :
  fst (init t c h eh (Some d)) =
  apply_fields setitem d
    {| cls := t; entry_id := c; head := h; ehash := eh; fields := [] |}.
Proof.
  unfold init, apply_fields. cbn [fst].
  generalize {| cls := t; entry_id := c; head := h; ehash := eh;
                fields := [] |}.
  induction d as [|[k v] d IH]; intros e; [reflexivity|].
  cbn [fold_left fst snd]. apply IH.
Qed.

(** X6: an entry constructed from a mapping takes the next id, advances
    the counter by one, and reads back every value of the mapping through
    [get_field] (for a password entry, when the cipher inverts: [b"u"] and
    [b"p"] went through [set_field]). *)
Theorem init_reads_back t c h eh d k v :
  NoDup (dict_keys d) -> cipher_inverts -> In (k, v) d ->
  get_field k (fst (init t c h eh (Some d))) = Ok v /\
  entry_id (fst (init t c h eh (Some d))) = c /\
  snd (init t c h eh (Some d)) = S c /\
  dict_keys (fields (fst (init t c h eh (Some d)))) = dict_keys d.
Proof.
  intros Hnd Hinv Hin. rewrite init_apply_fields, apply_setitem.
  cbn [with_fields fields entry_id]. rewrite store_all_map.
  set (e0 := {| cls := t; entry_id := c; head := h; ehash := eh;
                fields := [] |}).
  set (d' := map (fun kv => (fst kv, stored e0 (fst kv) (snd kv))) d).
  assert (Hk : dict_keys d' = dict_keys d).
  { unfold d', dict_keys. rewrite map_map. reflexivity. }
  assert (Hfr : store_all (fun _ v0 => v0) d' [] = d').
  { apply (store_all_fresh d' []). cbn [app]. rewrite Hk. exact Hnd. }
  rewrite Hfr. split; [|auto].
  assert (Hget : dict_get k d' = Some (stored e0 k v)).
  { apply dict_get_In; [rewrite Hk; exact Hnd|].
    unfold d'. apply (in_map (fun kv => (fst kv, stored e0 (fst kv) (snd kv)))
                        d (k, v) Hin). }
  unfold get_field, _get_crypt, get_field_raw. cbn [with_fields cls fields head].
  rewrite Hget. cbn [bind]. unfold stored, e0. cbn [cls head].
  destruct t; [reflexivity|].
  destruct (in_dec bytes_eq_dec k encrypted_fields); [apply Hinv|reflexivity].
Qed.

Lemma cls_set_field k v e : cls (set_field k v e) = cls e.
Proof. rewrite set_field_stored. reflexivity. Qed.

Lemma mem_set_field_same k v e : dict_mem k (fields (set_field k v e)) = true.
Proof.
  rewrite set_field_stored. unfold set_field_raw. cbn [with_fields fields].
  apply dict_mem_set_same.
Qed.

Lemma mem_set_field_mono f k v e :
  dict_mem f (fields e) = true -> dict_mem f (fields (set_field k v e)) = true.
Proof.
  rewrite set_field_stored. unfold set_field_raw. cbn [with_fields fields].
  apply dict_mem_set_mono.
Qed.

(** X7: a password entry filled through its four property setters passes
    [validate_struct], and each property reads back what was assigned to
    it ([username] and [password] when the cipher inverts). *)
Theorem password_entry_by_setters e n u p r :
  cls e = PdbPwdEntry -> cipher_inverts ->
  let e' := pwd_set_remark r (pwd_set_password p
              (pwd_set_username u (pwd_set_name n e))) in
  validate_struct e' = Ok e' /\
  pwd_name e' = Ok n /\ pwd_username e' = Ok u /\
  pwd_password e' = Ok p /\ pwd_remark e' = Ok r.
Proof.
  intros Hc Hinv. cbv zeta.
  unfold pwd_set_remark, pwd_set_password, pwd_set_username, pwd_set_name,
    pwd_name, pwd_username, pwd_password, pwd_remark, setitem, getitem.
  set (e1 := set_field ["n"%byte] n e).
  set (e2 := set_field ["u"%byte] u e1).
  set (e3 := set_field ["p"%byte] p e2).
  assert (Hc1 : cls e1 = PdbPwdEntry) by (unfold e1; rewrite cls_set_field; exact Hc).
  assert (Hc2 : cls e2 = PdbPwdEntry) by (unfold e2; rewrite cls_set_field; exact Hc1).
  assert (Hc3 : cls e3 = PdbPwdEntry) by (unfold e3; rewrite cls_set_field; exact Hc2).
  assert (Hplain_n : ~ In ["n"%byte] encrypted_fields)
    by (cbn; intros [H|[H|[]]]; discriminate).
  assert (Hplain_r : ~ In ["r"%byte] encrypted_fields)
    by (cbn; intros [H|[H|[]]]; discriminate).
  assert (Hu : In ["u"%byte] encrypted_fields) by (cbn; auto).
  assert (Hp : In ["p"%byte] encrypted_fields) by (cbn; auto).
  split; [|split; [|split; [|split]]].
  - unfold validate_struct. rewrite cls_set_field, Hc3.
    assert (Hall : forallb (fun field =>
                     dict_mem field (fields (set_field ["r"%byte] r e3)))
                     all_fields = true).
    { apply forallb_forall. intros f Hf. unfold e3, e2, e1.
      cbn in Hf. destruct Hf as [<-|[<-|[<-|[<-|[]]]]];
        repeat (apply mem_set_field_same || apply mem_set_field_mono). }
    rewrite Hall. reflexivity.
  - unfold e3, e2. rewrite !get_field_set_other by discriminate.
    apply get_field_set_plain. right. exact Hplain_n.
  - unfold e3. rewrite !get_field_set_other by discriminate.
    apply get_field_set_crypt; assumption.
  - rewrite get_field_set_other by discriminate.
    apply get_field_set_crypt; assumption.
  - apply get_field_set_plain. right. exact Hplain_r.
Qed.

(** X8: after [rehash] an entry passes [revalidate], its fields are
    untouched, and [add_entry] admits it if its structure is valid;
    [rehash] and [hash_ok] hand the collaborator the same arguments. *)
Theorem rehash_revalidates e c :
  hash_consistent -> validate_struct e = Ok e ->
  revalidate (rehash e) = Ok (rehash e) /\
  fields (rehash e) = fields e /\
  add_entry (rehash e) c = (append (rehash e) c, Ok tt).
Proof.
  intros Hh Hv.
  assert (Hok : hash_ok (rehash e) = true).
  { unfold hash_ok, rehash, entry. cbn [with_ehash head ehash fields].
    apply Hh. }
  assert (Hr : revalidate (rehash e) = Ok (rehash e)).
  { unfold revalidate. rewrite Hok. reflexivity. }
  assert (Hv' : validate_struct (rehash e) = Ok (rehash e)).
  { revert Hv. unfold validate_struct, rehash. cbn [with_ehash cls fields].
    destruct (cls e); [reflexivity|].
    destruct (negb _); [discriminate|reflexivity]. }
  split; [exact Hr|]. split; [reflexivity|].
  unfold add_entry. rewrite Hr, Hv'. reflexivity.
Qed.

(** X9: [from_entry] neither reads nor checks the tag: it keeps the class,
    the id, the container and the tag of the entry, gives the same fields
    under any tag, and the only error it raises is FormatError. *)
Theorem from_entry_keeps_tag e data :
  match from_entry e data with
  | Ok e' =>
      cls e' = cls e /\ entry_id e' = entry_id e /\ head e' = head e /\
      ehash e' = ehash e /\
      forall h, from_entry (with_ehash h e) data = Ok (with_ehash h e')
  | Raise x => x = FormatError
  end.
Proof.
  unfold from_entry.
  destruct (read_fields setitem data e) as [[e' rest]|x] eqn:Hr; cbn [bind fst].
  - apply read_fields_inv in Hr. destruct Hr as (recs & Hwf & -> & ->).
    rewrite apply_setitem. cbn [with_fields cls entry_id head ehash].
    repeat split. intros h. rewrite read_fields_framed by exact Hwf.
    cbn [bind fst]. rewrite apply_setitem. reflexivity.
  - eapply read_fields_raise. exact Hr.
Qed.

(** X10: the field loop of [gather] accepts a repeated identifier: the
    store it builds from an empty one has distinct names, exactly the names
    on the wire, and holds for each name the value of its last
    occurrence. *)
Theorem parse_last_write_wins recs rest e :
  Forall wf_field recs -> fields e = [] ->
  exists e',
    read_fields set_field_raw (encode_fields recs ++ "000"%byte :: rest) e =
      Ok (e', rest) /\
    NoDup (dict_keys (fields e')) /\
    (forall k, In k (dict_keys (fields e')) <-> In k (map fst recs)) /\
    (forall pre k v post,
       recs = pre ++ (k, v) :: post -> ~ In k (map fst post) ->
       get_field_raw k e' = Ok v).
Proof.
  intros Hwf He. exists (apply_fields set_field_raw recs e).
  split; [apply read_fields_framed, Hwf|].
  rewrite apply_set_field_raw, He. cbn [with_fields fields].
  assert (Hinv : forall rs d,
            NoDup (dict_keys d) ->
            NoDup (dict_keys (store_all (fun _ v => v) rs d)) /\
            (forall k, In k (dict_keys (store_all (fun _ v => v) rs d)) <->
                       In k (dict_keys d) \/ In k (map fst rs))).
  { induction rs as [|[k v] rs IH]; intros d Hd.
    - split; [exact Hd|]. intros k. cbn. split; [auto|intros [H|[]]; exact H].
    - unfold store_all in *. cbn [fold_left fst snd map].
      assert (Hd' : NoDup (dict_keys (dict_set k v d))).
      { rewrite dict_keys_set. destruct (dict_mem k d) eqn:Hm; [exact Hd|].
        apply NoDup_app; [exact Hd|repeat constructor; intros []|].
        intros x Hx [<-|[]]. apply dict_mem_true in Hx. congruence. }
      destruct (IH _ Hd') as [Hnd Hk]. split; [exact Hnd|].
      intros k0. rewrite Hk, dict_keys_set.
      destruct (dict_mem k d) eqn:Hm.
      + apply dict_mem_true in Hm. cbn [In]. split.
        * intros [H|H]; auto.
        * intros [H|[<-|H]]; auto.
      + rewrite in_app_iff. cbn [In]. split.
        * intros [[H|[<-|[]]]|H]; auto.
        * intros [H|[<-|H]]; auto. }
  destruct (Hinv recs [] (NoDup_nil _)) as [Hnd Hk]. split; [exact Hnd|].
  split.
  - intros k. rewrite Hk. cbn. split; [intros [[]|H]; exact H|auto].
  - intros pre k v post -> Hpost. unfold get_field_raw.
    cbn [with_fields fields].
    rewrite store_all_get_last by exact Hpost. reflexivity.
Qed.

(** X14: the bytes that the tag covers determine the fields: two stores
    of fields the wire format can carry with the same [entry] bytes are
    the same store. *)
Theorem entry_determines_fields e1 e2 :
  NoDup (dict_keys (fields e1)) -> NoDup (dict_keys (fields e2)) ->
  Forall wf_field (fields e1) -> Forall wf_field (fields e2) ->
  entry e1 = entry e2 -> fields e1 = fields e2.
Proof.
  intros Hn1 Hn2 Hw1 Hw2 Heq.
  pose proof (read_fields_framed set_field_raw [] (with_fields [] e1) Hw1) as H1.
  pose proof (read_fields_framed set_field_raw [] (with_fields [] e1) Hw2) as H2.
  rewrite <- entry_encode_fields in H1, H2. rewrite Heq in H1.
  rewrite H1 in H2. injection H2 as H2.
  rewrite !apply_set_field_raw in H2. cbn [with_fields fields] in H2.
  rewrite !store_all_fresh in H2 by assumption.
  injection H2 as H2. exact H2.
Qed.

(** ** Further properties: the collection *)

Lemma read_fields_raw_keeps setter_b e e' rest :
  read_fields set_field_raw setter_b e = Ok (e', rest) ->
  cls e' = cls e /\ entry_id e' = entry_id e /\ head e' = head e /\
  ehash e' = ehash e.
Proof.
  intros H. apply read_fields_inv in H. destruct H as (recs & _ & _ & ->).
  rewrite apply_set_field_raw. repeat split.
Qed.

Lemma gather_loop_ids t b st st' r :
  gather_loop t b st = (st', r) ->
  exists adm,
    ents (self st') = ents (self st) ++ adm /\
    map entry_id adm = seq (counter st) (length adm) /\
    Forall (fun e => cls e = t /\ head e = ents_head (self st)) adm /\
    counter st' = counter st + length adm
                  + match r with Ok _ => 0 | Raise _ => 1 end /\
    ents_head (self st') = ents_head (self st).
Proof.
  remember (length b) as m eqn:Hm. revert b st Hm.
  induction m as [m IH] using lt_wf_ind. intros b st Hm.
  rewrite gather_loop_gates.
  assert (Hstop : forall s1 r1, (s1, r1) = (st', r) -> counter s1 = counter st
            + match r1 with Ok _ => 0 | Raise _ => 1 end ->
            self s1 = self st ->
            exists adm,
              ents (self st') = ents (self st) ++ adm /\
              map entry_id adm = seq (counter st) (length adm) /\
              Forall (fun e => cls e = t /\ head e = ents_head (self st)) adm /\
              counter st' = counter st + length adm
                            + match r with Ok _ => 0 | Raise _ => 1 end /\
              ents_head (self st') = ents_head (self st)).
  { intros s1 r1 H Hc Hs. injection H as <- <-. exists [].
    rewrite app_nil_r, Hs. cbn [length map seq]. rewrite Hc.
    repeat split; auto; lia. }
  destruct (fst (read (ds (ents_head (self st))) b)) as [|h0 h] eqn:Htag.
  - intros H. apply (Hstop _ _ H); [lia|reflexivity].
  - destruct (read_fields _ _ _) as [[e b2]|x] eqn:Hf.
    + destruct (gates e) as [e2|x] eqn:Hg.
      * intros H. apply gates_Ok in Hg. destruct Hg as [-> _].
        pose proof (read_fields_rest _ _ _ Hf) as Hlt.
        unfold read in Hlt. cbn [snd] in Hlt. rewrite length_skipn in Hlt.
        assert (Hlt' : length b2 < m) by lia.
        apply read_fields_raw_keeps in Hf. cbn [init fst cls entry_id head] in Hf.
        destruct Hf as (Hcls & Hid & Hhd & _).
        destruct (IH _ Hlt' _ _ eq_refl H) as (adm & Hents & Hids & Hall & Hc & Hh).
        cbn [admit_entry self append ents counter ents_head] in *.
        exists (e :: adm). cbn [length map seq]. repeat split.
        -- rewrite Hents, <- app_assoc. reflexivity.
        -- rewrite Hid, Hids. reflexivity.
        -- constructor; [split; assumption|exact Hall].
        -- rewrite Hc. lia.
        -- exact Hh.
      * intros H. apply (Hstop _ _ H); [cbn; lia|reflexivity].
    + intros H. apply (Hstop _ _ H); [cbn; lia|reflexivity].
Qed.

(** X11: the entries one call of [gather] admits are of the requested
    class, belong to the decrypted container, and carry consecutive ids
    starting at the class counter; the counter ends above all of them, so
    entries constructed later get new ids. *)
Theorem gather_assigns_ids t st st' r :
  gather t st = (st', r) ->
  exists adm,
    ents (self st') = ents (self st) ++ adm /\
    map entry_id adm = seq (counter st) (length adm) /\
    Forall (fun e => cls e = t /\ head e = ents_head (self st')) adm /\
    counter st + length adm <= counter st' <= counter st + length adm + 1.
Proof.
  unfold gather. destruct (decrypt (ents_head (self st))) as [hd|x].
  - cbv zeta. destruct (bytes_eq_dec (entries hd) []).
    + intros H. injection H as <- _. exists []. cbn. rewrite app_nil_r.
      repeat split; auto; lia.
    + intros H. apply gather_loop_ids in H.
      destruct H as (adm & Hents & Hids & Hall & Hc & Hh).
      cbn [self counter set_head ents ents_head] in *.
      exists adm. rewrite Hh. repeat split; try assumption.
      * rewrite Hc. lia.
      * rewrite Hc. destruct r; lia.
  - intros H. injection H as <- _. exists []. cbn. rewrite app_nil_r.
    repeat split; auto; lia.
Qed.

Lemma hash_ok_reparsed t hd k e :
  same_secrets (head e) hd -> hash_ok (reparsed t hd k e) = hash_ok e.
Proof.
  intros (H1 & H2 & H3 & H4 & H5). unfold hash_ok, entry, reparsed.
  cbn [head fields ehash]. rewrite H1, H2, H3, H4, H5. reflexivity.
Qed.

Lemma gates_ok_reparsed t hd k e :
  cls e = t -> same_secrets (head e) hd -> gates_ok e ->
  gates_ok (reparsed t hd k e).
Proof.
  intros Hc Hs [Hh Hv]. split.
  - rewrite hash_ok_reparsed by exact Hs. exact Hh.
  - revert Hv. unfold validate_struct, reparsed. cbn [cls fields].
    rewrite Hc. destruct t; [reflexivity|].
    destruct (negb _); [discriminate|reflexivity].
Qed.

Lemma gather_loop_nil t st : gather_loop t [] st = (st, Ok tt).
Proof.
  rewrite gather_loop_gates. unfold read. rewrite firstn_nil. reflexivity.
Qed.

(** The loop of [gather] over the serialization of storable entries
    appends their reparsed copies and ends without error. *)
Lemma gather_loop_db_entries t es st :
  Forall (storable t (ents_head (self st))) es ->
  gather_loop t (concat (map full_entry es)) st =
  ({| counter := counter st + length es;
      self := {| ents := ents (self st)
                         ++ reparsed_from t (ents_head (self st)) (counter st) es;
                 ents_head := ents_head (self st) |} |}, Ok tt).
Proof.
  intros H. revert st H. induction es as [|e es IH]; intros st H.
  - cbn [map concat length reparsed_from]. rewrite gather_loop_nil.
    rewrite app_nil_r, Nat.add_0_r. destruct st as [c [l h]]. reflexivity.
  - inversion H as [|? ? He Hes]; subst.
    destruct He as (Hlen & Hne & Hnd & Hwf & Hc & Hs & Hok).
    cbn [map concat]. unfold full_entry at 1. rewrite entry_encode_fields.
    rewrite <- !app_assoc. cbn [app].
    rewrite gather_loop_gates, <- Hlen, read_app. cbn [fst snd].
    destruct (ehash e) as [|h0 h] eqn:Hh; [contradiction|].
    rewrite read_fields_framed by exact Hwf. rewrite apply_set_field_raw.
    cbn [init fst with_fields fields].
    rewrite store_all_fresh by exact Hnd. cbn [app].
    assert (Hre : with_fields (fields e)
                    {| cls := t; entry_id := counter st;
                       head := ents_head (self st); ehash := h0 :: h;
                       fields := [] |}
                  = reparsed t (ents_head (self st)) (counter st) e).
    { unfold reparsed, with_fields. cbn. rewrite Hh. reflexivity. }
    rewrite Hre.
    rewrite (gates_ok_Ok (gates_ok_reparsed (counter st) Hc Hs Hok)).
    rewrite IH by exact Hes.
    cbn [admit_entry counter self append ents ents_head length reparsed_from].
    rewrite <- app_assoc. cbn [app]. f_equal. f_equal. lia.
Qed.


(** X13: when [decrypt] succeeds on the container of the collection and
    leaves the committed container as it is, and every entry of the
    collection is storable under it (a tag of the digest size, field names
    and values the wire format can carry, the class [t], the secret
    material of the container, both gates passed), [commit] leaves in the
    container the concatenation of [full_entry] of the entries, and
    [gather] of class [t] on a fresh collection over that container gives,
    without error, a copy of every entry in the same order, with its tag
    and its fields, under consecutive ids. *)
Theorem commit_then_gather t c hd n :
  decrypt (ents_head c) = Ok hd ->
  decrypt (set_entries (db_entries c) hd) = Ok (set_entries (db_entries c) hd) ->
  Forall (storable t (set_entries (db_entries c) hd)) (ents c) ->
  commit c = Ok (set_entries (db_entries c) hd) /\
  entries (set_entries (db_entries c) hd) = concat (map full_entry (ents c)) /\
  gather t {| counter := n;
              self := PdbEntries_init (set_entries (db_entries c) hd) |} =
    ({| counter := n + length (ents c);
        self := {| ents := reparsed_from t (set_entries (db_entries c) hd) n
                             (ents c);
                   ents_head := set_entries (db_entries c) hd |} |}, Ok tt).
Proof.
  intros Hd Hd' Hst. split; [unfold commit; rewrite Hd; reflexivity|].
  split; [reflexivity|].
  unfold gather. cbn [self PdbEntries_init ents_head counter]. rewrite Hd'.
  cbv zeta. cbn [set_entries entries].
  destruct (bytes_eq_dec (db_entries c) []) as [E|E].
  - destruct (ents c) as [|e es] eqn:He.
    + cbn. rewrite Nat.add_0_r. reflexivity.
    + exfalso. inversion Hst as [|? ? (_ & Hne & _) _]; subst.
      unfold db_entries in E. rewrite He in E. cbn [map concat] in E.
      unfold full_entry in E. destruct (ehash e); [contradiction|discriminate].
  - unfold db_entries at 1.
    rewrite gather_loop_db_entries by exact Hst. reflexivity.
Qed.

(** ** Further properties: rendering *)

Lemma map_dict_set_blind {B} (f : bytes * bytes -> B) k v v' d :
  (forall x y, f (k, x) = f (k, y)) ->
  map f (dict_set k v d) = map f (dict_set k v' d).
Proof.
  intros Hf. induction d as [|[k0 v0] d IH]; cbn [dict_set map].
  - f_equal. apply Hf.
  - destruct (bytes_eq_dec k0 k) as [->|E]; cbn [map].
    + f_equal. apply Hf.
    + f_equal. exact IH.
Qed.

Lemma str_set_raw_blind e k v v' :
  cls e = PdbPwdEntry -> In k encrypted_fields ->
  str (set_field_raw k v e) = str (set_field_raw k v' e).
Proof.
  intros Hc Hin. unfold str, set_field_raw. cbn [with_fields cls fields].
  rewrite Hc. f_equal. apply map_dict_set_blind. intros x y.
  destruct (in_dec bytes_eq_dec k encrypted_fields); [reflexivity|contradiction].
Qed.

Lemma PdbEntries_str_ext c c' :
  map str (ents c) = map str (ents c') -> PdbEntries_str c = PdbEntries_str c'.
Proof.
  unfold PdbEntries_str. intros H. f_equal.
  generalize 0. revert H. generalize (ents c') as l'. generalize (ents c) as l.
  induction l as [|a l IH]; intros [|a' l'] H k; try discriminate.
  - reflexivity.
  - cbn [map] in H. injection H as Ha Hl. cbn [enumerate map].
    rewrite Ha. f_equal. apply IH. exact Hl.
Qed.

(** X15: the rendering of a password entry, alone or in the listing of a
    collection, does not depend on the values of [b"u"] and [b"p"]:
    whatever is set for them, the text is the same. *)
Theorem str_masks_secrets e k v v' c :
  cls e = PdbPwdEntry -> In k encrypted_fields ->
  str (set_field k v e) = str (set_field k v' e) /\
  str (set_field_raw k v e) = str (set_field_raw k v' e) /\
  PdbEntries_str (append (set_field k v e) c) =
  PdbEntries_str (append (set_field k v' e) c).
Proof.
  intros Hc Hin.
  assert (Hs : str (set_field k v e) = str (set_field k v' e)).
  { rewrite !set_field_stored. apply str_set_raw_blind; assumption. }
  split; [exact Hs|]. split; [apply str_set_raw_blind; assumption|].
  apply PdbEntries_str_ext. cbn [append ents]. rewrite !map_app. cbn [map].
  rewrite Hs. reflexivity.
Qed.

End Entries.

(** ** A small instance: collaborators simple enough to run *)

Module Demo.

(** The tag is the length of the field area, as one byte. *)
Definition hash_walgo (hid : nat) (data pw sa : bytes) (kdf hsl : nat) : bytes :=
  [s.byte_of_N (N.of_nat (length data))].

Definition hash_walgo_compare (hid : nat) (data pw sa : bytes) (kdf hsl : nat)
    (target : bytes) : bool :=
  bytes_eqb (hash_walgo hid data pw sa kdf hsl) target.

(** The ciphertext is the plaintext behind a marker byte. *)
Definition encrypt_secure (x pw sa : bytes) (hid hsl scp kdf lvl : nat) : bytes :=
  "001"%byte :: x.

Definition decrypt_secure (c pw sa : bytes) (hid hsl scp kdf : nat)
    : result bytes :=
  match c with
  | "001"%byte :: x => Ok x
  | _ => Raise DecryptionError
  end.

(** An encrypted container carries the byte 255 before its blob;
    decrypting removes it and leaves a decrypted container as it is. *)
Definition decrypt (h : PdbHeader) : result PdbHeader :=
  match entries h with
  | "255"%byte :: blob => Ok (set_entries blob h)
  | _ => Ok h
  end.

Definition ds (h : PdbHeader) : nat := 1.

Definition header (blob : bytes) : PdbHeader :=
  {| password := ["p"%byte; "w"%byte]; salt := []; hash_id := 0;
     kdf_passes := 1; hash_salt_len := 0; sec_crypto_passes := 1;
     zstd_comp_lvl := 0; entries := blob |}.

(** The field area [n -> a] and two records over it: one with the right
    tag, one with a wrong one. *)
Definition area : bytes :=
  ["n"; "001"; "000"; "000"; "000"; "a"]%byte.

Definition good_record : bytes := ["006"%byte] ++ area ++ ["000"%byte].
Definition bad_record : bytes := ["009"%byte] ++ area ++ ["000"%byte].

Definition blob : bytes := good_record ++ bad_record.

Definition raw_entry (id : nat) (tag : bytes) (d : dict) : PdbEntry :=
  {| cls := PdbRawEntry; entry_id := id; head := header blob; ehash := tag;
     fields := d |}.

Definition pwd_entry (id : nat) (tag : bytes) (d : dict) : PdbEntry :=
  {| cls := PdbPwdEntry; entry_id := id; head := header blob; ehash := tag;
     fields := d |}.

Definition good_entry : PdbEntry :=
  raw_entry 0 ["006"%byte] [(["n"%byte], ["a"%byte])].

Definition bad_entry : PdbEntry :=
  raw_entry 1 ["009"%byte] [(["n"%byte], ["a"%byte])].

(** A fresh collection over the encrypted container. *)
Definition st0 : state :=
  {| counter := 0;
     self := PdbEntries_init (header ("255"%byte :: blob)) |}.

Definition st_open : state :=
  {| counter := 0; self := PdbEntries_init (header blob) |}.

Definition gather' : entry_t -> state -> state * result unit :=
  gather hash_walgo_compare encrypt_secure decrypt ds.

Definition repr (b : bytes) : String.string :=
  String.append "b'" (String.append (String.string_of_list_byte b) "'").

(** A password record with all four fields, and its tag. *)
Definition login : dict :=
  [(["n"%byte], ["g"%byte]); (["u"%byte], ["001"; "a"]%byte);
   (["p"%byte], ["001"; "s"]%byte); (["r"%byte], [])].

Definition login_entry : PdbEntry := pwd_entry 5 ["025"%byte] login.

End Demo.

(** ** The statements at the instance *)

(** A value cut short of its declared five bytes, alone and behind a full
    tag; and, with a digest of two bytes, a blob that ends after one. *)
Lemma truncated_raises_FormatError_witness :
  from_entry Demo.encrypt_secure (Demo.raw_entry 0 [] [])
    ["n"; "005"; "000"; "000"; "000"; "a"]%byte = Raise FormatError /\
  gather_loop Demo.hash_walgo_compare Demo.encrypt_secure Demo.ds PdbRawEntry
    ["007"; "n"; "005"; "000"; "000"; "000"; "a"]%byte Demo.st_open =
    (bump Demo.st_open, Raise FormatError) /\
  gather_loop Demo.hash_walgo_compare Demo.encrypt_secure (fun _ => 2)
    PdbRawEntry ["007"%byte] Demo.st_open =
    (bump Demo.st_open, Raise FormatError).
Proof.
  assert (Ht : truncated ["n"; "005"; "000"; "000"; "000"; "a"]%byte).
  { apply (@trunc_value ["n"%byte] 5 ["a"%byte]).
    - reflexivity.
    - discriminate.
    - vm_compute. reflexivity.
    - simpl. lia. }
  destruct (@truncated_raises_FormatError Demo.hash_walgo_compare
              Demo.encrypt_secure Demo.ds set_field_raw PdbRawEntry
              Demo.st_open (Demo.raw_entry 0 [] [])
              ["n"; "005"; "000"; "000"; "000"; "a"]%byte ["007"%byte])
    as (_ & Hfrom & Hfull & _).
  - exact Ht.
  - discriminate.
  - unfold Demo.ds. simpl. lia.
  - destruct (@truncated_raises_FormatError Demo.hash_walgo_compare
                Demo.encrypt_secure (fun _ => 2) set_field_raw PdbRawEntry
                Demo.st_open (Demo.raw_entry 0 [] [])
                ["n"; "005"; "000"; "000"; "000"; "a"]%byte ["007"%byte])
      as (_ & _ & _ & Hshort).
    + exact Ht.
    + discriminate.
    + simpl. lia.
    + split; [exact Hfrom|]. split; [apply Hfull; reflexivity|].
      apply Hshort. simpl. lia.
Defined.

(** The collection holds the first record of the blob after [gather] has
    raised on the second: the entry list is not the one before the call. *)
Lemma gather_partial_admission :
  Demo.gather' PdbRawEntry Demo.st0 =
    ({| counter := 2;
        self := {| ents := [Demo.good_entry];
                   ents_head := Demo.header Demo.blob |} |},
     Raise (DataIntegrityError 1 ["009"%byte])) /\
  ents (self Demo.st0) = [] /\
  ents (self (fst (Demo.gather' PdbRawEntry Demo.st0))) <> ents (self Demo.st0).
Proof.
  split; [vm_compute; reflexivity|]. split; [reflexivity|].
  vm_compute. discriminate.
Qed.

Lemma gather_fail_fast_witness :
  Demo.gather' PdbRawEntry Demo.st0 =
    ({| counter := 2;
        self := {| ents := [Demo.good_entry];
                   ents_head := Demo.header Demo.blob |} |},
     Raise (DataIntegrityError 1 ["009"%byte])) /\
  fst (add_entry Demo.hash_walgo_compare Demo.bad_entry
         (PdbEntries_init (Demo.header Demo.blob))) =
    PdbEntries_init (Demo.header Demo.blob).
Proof.
  destruct (@gather_fail_fast Demo.hash_walgo_compare Demo.encrypt_secure
              Demo.decrypt Demo.ds PdbRawEntry Demo.st0
              (Demo.header Demo.blob) [Demo.good_entry] Demo.bad_record
              {| counter := 1;
                 self := {| ents := [Demo.good_entry];
                            ents_head := Demo.header Demo.blob |} |}
              Demo.bad_entry [] (DataIntegrityError 1 ["009"%byte])
              Demo.bad_entry (PdbEntries_init (Demo.header Demo.blob))
              (PdbEntries_init (Demo.header Demo.blob))
              (DataIntegrityError 1 ["009"%byte]))
    as (Hg & _ & _ & Hc).
  - reflexivity.
  - apply (@admits_cons Demo.hash_walgo_compare Demo.encrypt_secure Demo.ds
             PdbRawEntry _ _ Demo.good_entry Demo.bad_record).
    + vm_compute. reflexivity.
    + vm_compute. reflexivity.
    + apply admits_nil.
  - vm_compute. reflexivity.
  - vm_compute. reflexivity.
  - vm_compute. reflexivity.
  - split; [exact Hg|]. vm_compute. reflexivity.
Defined.

(** The password class over a record with a wrong tag and only [b"n"]:
    both gates would reject it, and [gather] reports the tag. *)
Lemma admission_gates_witness :
  Forall (gates_ok Demo.hash_walgo_compare)
    (ents (self (fst (Demo.gather' PdbRawEntry Demo.st0)))) /\
  ents (fst (add_entry Demo.hash_walgo_compare Demo.good_entry
               (PdbEntries_init (Demo.header Demo.blob)))) =
    [Demo.good_entry] /\
  snd (add_entry Demo.hash_walgo_compare Demo.bad_entry
         (PdbEntries_init (Demo.header Demo.blob))) =
    Raise (DataIntegrityError 1 ["009"%byte]) /\
  validate_struct (Demo.pwd_entry 0 ["009"%byte] [(["n"%byte], ["a"%byte])]) =
    Raise (StructureError 0) /\
  gather_loop Demo.hash_walgo_compare Demo.encrypt_secure Demo.ds PdbPwdEntry
    Demo.bad_record Demo.st_open =
    (bump Demo.st_open, Raise (DataIntegrityError 0 ["009"%byte])).
Proof.
  destruct (@admission_gates Demo.hash_walgo_compare Demo.encrypt_secure
              Demo.decrypt Demo.ds PdbRawEntry Demo.st0
              (fst (Demo.gather' PdbRawEntry Demo.st0))
              (snd (Demo.gather' PdbRawEntry Demo.st0))
              Demo.good_entry (PdbEntries_init (Demo.header Demo.blob))
              (append Demo.good_entry (PdbEntries_init (Demo.header Demo.blob)))
              (Ok tt))
    as (_ & Hinv & _).
  - vm_compute. reflexivity.
  - vm_compute. reflexivity.
  - destruct (@admission_gates Demo.hash_walgo_compare Demo.encrypt_secure
                Demo.decrypt Demo.ds PdbPwdEntry Demo.st0
                (fst (Demo.gather' PdbPwdEntry Demo.st0))
                (snd (Demo.gather' PdbPwdEntry Demo.st0))
                Demo.good_entry (PdbEntries_init (Demo.header Demo.blob))
                (append Demo.good_entry
                   (PdbEntries_init (Demo.header Demo.blob)))
                (Ok tt))
      as (_ & _ & _ & _ & _ & _ & _ & Hbad & _).
    + vm_compute. reflexivity.
    + vm_compute. reflexivity.
    + split; [apply Hinv; constructor|].
      split; [vm_compute; reflexivity|]. split; [vm_compute; reflexivity|].
      split; [vm_compute; reflexivity|].
      apply (Hbad Demo.bad_record Demo.st_open
               (Demo.pwd_entry 0 ["009"%byte] [(["n"%byte], ["a"%byte])]) []).
      * vm_compute. reflexivity.
      * vm_compute. reflexivity.
Defined.

Lemma selective_encryption_witness :
  get_field Demo.decrypt_secure ["u"%byte]
    (set_field Demo.encrypt_secure ["u"%byte]
       ["a"; "l"; "i"; "c"; "e"]%byte (Demo.pwd_entry 0 [] [])) =
    Ok ["a"; "l"; "i"; "c"; "e"]%byte /\
  get_field_raw ["u"%byte]
    (set_field Demo.encrypt_secure ["u"%byte]
       ["a"; "l"; "i"; "c"; "e"]%byte (Demo.pwd_entry 0 [] [])) <>
    Ok ["a"; "l"; "i"; "c"; "e"]%byte /\
  get_field Demo.decrypt_secure ["p"%byte]
    (set_field Demo.encrypt_secure ["p"%byte] [] (Demo.pwd_entry 0 [] [])) =
    Ok [].
Proof.
  assert (Hinv : cipher_inverts Demo.encrypt_secure Demo.decrypt_secure)
    by (intros x pw sa hid hsl scp kdf lvl; reflexivity).
  assert (Hhide : cipher_hides Demo.encrypt_secure).
  { intros x pw sa hid hsl scp kdf lvl _ H.
    apply (f_equal (@length byte)) in H. simpl in H. lia. }
  destruct (@selective_encryption Demo.encrypt_secure Demo.decrypt_secure
              (Demo.pwd_entry 0 [] []) ["u"%byte]
              ["a"; "l"; "i"; "c"; "e"]%byte)
    as (Hget & _ & Hraw); try assumption.
  - reflexivity.
  - simpl. auto.
  - split; [exact Hget|]. split; [apply Hraw; discriminate|].
    apply (@selective_encryption Demo.encrypt_secure Demo.decrypt_secure
             (Demo.pwd_entry 0 [] []) ["p"%byte] []); try assumption.
    + reflexivity.
    + simpl. auto.
Defined.

(** A field named by the sentinel byte is lost: the parse stops at it. *)
Lemma raw_roundtrip_sentinel_name :
  from_entry Demo.encrypt_secure (Demo.raw_entry 8 [] [])
    (entry (Demo.raw_entry 7 [] [(["000"%byte], ["x"%byte])])
       ++ ["000"%byte]) =
    Ok (Demo.raw_entry 8 [] []) /\
  from_entry Demo.encrypt_secure (Demo.raw_entry 8 [] [])
    (entry (Demo.raw_entry 7 [] [(["000"%byte], ["x"%byte])])
       ++ ["000"%byte]) <>
    Ok (with_fields (fields (Demo.raw_entry 7 [] [(["000"%byte], ["x"%byte])]))
          (Demo.raw_entry 8 [] [])).
Proof.
  split; [vm_compute; reflexivity|]. vm_compute. discriminate.
Qed.

Lemma raw_roundtrip_witness :
  from_entry Demo.encrypt_secure (Demo.raw_entry 8 [] [])
    (entry (Demo.raw_entry 7 [] [(["n"%byte], ["a"%byte]); (["r"%byte], [])])
       ++ ["000"%byte]) =
    Ok (Demo.raw_entry 8 [] [(["n"%byte], ["a"%byte]); (["r"%byte], [])]).
Proof.
  apply (@raw_roundtrip Demo.encrypt_secure
           (Demo.raw_entry 7 [] [(["n"%byte], ["a"%byte]); (["r"%byte], [])])
           (Demo.raw_entry 8 [] [])).
  - reflexivity.
  - reflexivity.
  - simpl. repeat constructor; simpl; intuition discriminate.
  - simpl. repeat constructor; simpl; discriminate.
Defined.

Lemma validate_struct_password_witness :
  validate_struct
    (Demo.pwd_entry 3 []
       [(["n"%byte], []); (["u"%byte], []); (["p"%byte], []); (["r"%byte], [])])
  = Ok (Demo.pwd_entry 3 []
       [(["n"%byte], []); (["u"%byte], []); (["p"%byte], []); (["r"%byte], [])])
  /\
  validate_struct
    (Demo.pwd_entry 4 [] [(["n"%byte], ["a"%byte]); (["u"%byte], [])])
  = Raise (StructureError 4).
Proof.
  split.
  - apply (@validate_struct_password
             (Demo.pwd_entry 3 []
                [(["n"%byte], []); (["u"%byte], []); (["p"%byte], []);
                 (["r"%byte], [])])); [reflexivity|].
    simpl. intuition (subst; auto).
  - apply (@validate_struct_password
             (Demo.pwd_entry 4 [] [(["n"%byte], ["a"%byte]); (["u"%byte], [])]));
      [reflexivity|].
    exists ["p"%byte]. simpl. split; [auto|]. intuition discriminate.
Defined.

(** An encrypted container whose blob is empty once decrypted. *)
Lemma gather_empty_blob_witness :
  Demo.gather' PdbPwdEntry
    {| counter := 0; self := PdbEntries_init (Demo.header ["255"%byte]) |} =
    ({| counter := 0; self := PdbEntries_init (Demo.header []) |}, Ok tt).
Proof.
  apply (@gather_empty_blob Demo.hash_walgo_compare Demo.encrypt_secure
           Demo.decrypt Demo.ds PdbPwdEntry
           {| counter := 0; self := PdbEntries_init (Demo.header ["255"%byte]) |}
           (Demo.header [])).
  - reflexivity.
  - reflexivity.
Defined.

Lemma parse_paths_differ_witness :
  exists e1 e2,
    from_entry Demo.encrypt_secure (Demo.pwd_entry 0 [] [])
      ["n"; "001"; "000"; "000"; "000"; "g";
       "u"; "001"; "000"; "000"; "000"; "a"; "000"]%byte = Ok e1 /\
    read_fields set_field_raw
      ["n"; "001"; "000"; "000"; "000"; "g";
       "u"; "001"; "000"; "000"; "000"; "a"; "000"]%byte
      (Demo.pwd_entry 0 [] []) = Ok (e2, []) /\
    get_field_raw ["u"%byte] e1 = Ok ["001"; "a"]%byte /\
    get_field_raw ["u"%byte] e2 = Ok ["a"%byte] /\
    fields e1 <> fields e2.
Proof.
  destruct (@parse_paths_differ Demo.encrypt_secure (Demo.pwd_entry 0 [] [])
              [(["n"%byte], ["g"%byte])] ["u"%byte] ["a"%byte] [] [])
    as (e1 & e2 & H1 & H2 & H3 & H4 & H5).
  - reflexivity.
  - simpl. auto.
  - simpl. repeat constructor; simpl; discriminate.
  - simpl. auto.
  - exists e1, e2. repeat split; try assumption.
    apply H5. discriminate.
Defined.

Lemma absent_field_KeyError_witness :
  get_field Demo.decrypt_secure ["u"%byte]
    (Demo.pwd_entry 0 [] [(["n"%byte], ["a"%byte])]) =
    Raise (KeyError ["u"%byte]) /\
  get_field Demo.decrypt_secure ["z"%byte] (Demo.raw_entry 0 [] []) =
    Raise (KeyError ["z"%byte]).
Proof.
  split.
  - apply (@absent_field_KeyError Demo.decrypt_secure
             (Demo.pwd_entry 0 [] [(["n"%byte], ["a"%byte])]) ["u"%byte]).
    simpl. intuition discriminate.
  - apply (@absent_field_KeyError Demo.decrypt_secure
             (Demo.raw_entry 0 [] []) ["z"%byte]).
    simpl. auto.
Defined.

(** ** The further properties at the instance *)

Lemma raw_store_lookup_witness :
  get_field_raw ["n"%byte]
    (set_field_raw ["n"%byte] ["a"%byte] (Demo.raw_entry 0 [] [])) =
    Ok ["a"%byte] /\
  get_field_raw ["r"%byte]
    (set_field_raw ["n"%byte] ["a"%byte] (Demo.raw_entry 0 [] [])) =
    Raise (KeyError ["r"%byte]).
Proof.
  destruct (@raw_store_lookup (Demo.raw_entry 0 [] []) ["n"%byte] ["r"%byte]
              ["a"%byte]) as (H1 & H2 & _).
  - discriminate.
  - split; [exact H1|]. rewrite H2. reflexivity.
Defined.

Lemma plaintext_fields_witness :
  get_field Demo.decrypt_secure ["r"%byte]
    (set_field Demo.encrypt_secure ["r"%byte] ["x"%byte]
       (Demo.pwd_entry 0 [] [])) = Ok ["x"%byte] /\
  get_field_raw ["u"%byte]
    (set_field Demo.encrypt_secure ["u"%byte] ["x"%byte]
       (Demo.raw_entry 0 [] [])) = Ok ["x"%byte].
Proof.
  split.
  - apply (@plaintext_fields Demo.encrypt_secure Demo.decrypt_secure
             (Demo.pwd_entry 0 [] []) ["r"%byte] ["x"%byte]).
    right. simpl. intuition discriminate.
  - apply (@plaintext_fields Demo.encrypt_secure Demo.decrypt_secure
             (Demo.raw_entry 0 [] []) ["u"%byte] ["x"%byte]).
    left. reflexivity.
Defined.

Lemma set_field_frame_witness :
  get_field Demo.decrypt_secure ["n"%byte]
    (set_field Demo.encrypt_secure ["u"%byte] ["x"%byte] Demo.login_entry) =
    Ok ["g"%byte] /\
  ehash (set_field Demo.encrypt_secure ["u"%byte] ["x"%byte] Demo.login_entry)
    = ["025"%byte].
Proof.
  destruct (@set_field_frame Demo.encrypt_secure Demo.decrypt_secure
              Demo.login_entry ["u"%byte] ["n"%byte] ["x"%byte])
    as (H1 & _ & _ & _ & _ & H2).
  - discriminate.
  - split; [rewrite H1; reflexivity|rewrite H2; reflexivity].
Defined.

Lemma validate_struct_stable_witness :
  validate_struct
    (set_field Demo.encrypt_secure ["z"%byte] ["x"%byte] Demo.login_entry) =
  Ok (set_field Demo.encrypt_secure ["z"%byte] ["x"%byte] Demo.login_entry).
Proof.
  apply (@validate_struct_stable Demo.encrypt_secure Demo.login_entry
           ["z"%byte] ["x"%byte]).
  reflexivity.
Defined.

Lemma demo_cipher_inverts :
  cipher_inverts Demo.encrypt_secure Demo.decrypt_secure.
Proof. intros x pw sa hid hsl scp kdf lvl. reflexivity. Defined.

Lemma demo_hash_consistent :
  hash_consistent Demo.hash_walgo Demo.hash_walgo_compare.
Proof.
  intros hid data pw sa kdf hsl. unfold Demo.hash_walgo_compare, bytes_eqb.
  destruct (bytes_eq_dec _ _); [reflexivity|contradiction].
Defined.

Lemma init_reads_back_witness :
  get_field Demo.decrypt_secure ["u"%byte]
    (fst (init Demo.encrypt_secure PdbPwdEntry 3 (Demo.header []) []
            (Some [(["n"%byte], ["g"%byte]); (["u"%byte], ["a"%byte])]))) =
    Ok ["a"%byte] /\
  snd (init Demo.encrypt_secure PdbPwdEntry 3 (Demo.header []) []
         (Some [(["n"%byte], ["g"%byte]); (["u"%byte], ["a"%byte])])) = 4.
Proof.
  destruct (@init_reads_back Demo.encrypt_secure Demo.decrypt_secure
              PdbPwdEntry 3 (Demo.header []) []
              [(["n"%byte], ["g"%byte]); (["u"%byte], ["a"%byte])]
              ["u"%byte] ["a"%byte])
    as (H1 & _ & H2 & _).
  - simpl. repeat constructor; simpl; intuition discriminate.
  - exact demo_cipher_inverts.
  - simpl. auto.
  - split; [exact H1|exact H2].
Defined.

Lemma password_entry_by_setters_witness :
  pwd_username Demo.decrypt_secure
    (pwd_set_remark Demo.encrypt_secure []
       (pwd_set_password Demo.encrypt_secure ["s"%byte]
          (pwd_set_username Demo.encrypt_secure ["a"%byte]
             (pwd_set_name Demo.encrypt_secure ["g"%byte]
                (Demo.pwd_entry 0 [] []))))) = Ok ["a"%byte].
Proof.
  destruct (@password_entry_by_setters Demo.encrypt_secure Demo.decrypt_secure
              (Demo.pwd_entry 0 [] []) ["g"%byte] ["a"%byte] ["s"%byte] [])
    as (_ & _ & H & _).
  - reflexivity.
  - exact demo_cipher_inverts.
  - exact H.
Defined.

Lemma rehash_revalidates_witness :
  add_entry Demo.hash_walgo_compare
    (rehash Demo.hash_walgo (Demo.pwd_entry 5 [] Demo.login))
    (PdbEntries_init (Demo.header [])) =
  (append (rehash Demo.hash_walgo (Demo.pwd_entry 5 [] Demo.login))
     (PdbEntries_init (Demo.header [])), Ok tt).
Proof.
  apply (@rehash_revalidates Demo.hash_walgo Demo.hash_walgo_compare
           (Demo.pwd_entry 5 [] Demo.login) (PdbEntries_init (Demo.header []))).
  - exact demo_hash_consistent.
  - reflexivity.
Defined.

(** The name [n] twice on the wire: the second value is the one kept. *)
Lemma parse_last_write_wins_witness :
  exists e',
    read_fields set_field_raw
      ["n"; "001"; "000"; "000"; "000"; "a";
       "n"; "001"; "000"; "000"; "000"; "b"; "000"]%byte
      (Demo.raw_entry 0 [] []) = Ok (e', []) /\
    get_field_raw ["n"%byte] e' = Ok ["b"%byte].
Proof.
  destruct (@parse_last_write_wins
              [(["n"%byte], ["a"%byte]); (["n"%byte], ["b"%byte])] []
              (Demo.raw_entry 0 [] []))
    as (e' & H1 & _ & _ & H2).
  - simpl. repeat constructor; simpl; discriminate.
  - reflexivity.
  - exists e'. split; [exact H1|].
    apply (H2 [(["n"%byte], ["a"%byte])] ["n"%byte] ["b"%byte] []).
    + reflexivity.
    + simpl. auto.
Defined.

Lemma entry_determines_fields_witness :
  entry Demo.good_entry = entry Demo.bad_entry /\
  fields Demo.good_entry = fields Demo.bad_entry.
Proof.
  split; [reflexivity|].
  apply (@entry_determines_fields Demo.good_entry Demo.bad_entry).
  - simpl. repeat constructor; simpl; intuition discriminate.
  - simpl. repeat constructor; simpl; intuition discriminate.
  - simpl. repeat constructor; simpl; discriminate.
  - simpl. repeat constructor; simpl; discriminate.
  - reflexivity.
Defined.

Lemma gather_assigns_ids_witness :
  exists adm,
    ents (self (fst (Demo.gather' PdbRawEntry Demo.st0))) =
      ents (self Demo.st0) ++ adm /\
    map entry_id adm = seq 0 (length adm).
Proof.
  destruct (@gather_assigns_ids Demo.hash_walgo_compare Demo.encrypt_secure
              Demo.decrypt Demo.ds PdbRawEntry Demo.st0
              (fst (Demo.gather' PdbRawEntry Demo.st0))
              (snd (Demo.gather' PdbRawEntry Demo.st0)))
    as (adm & H1 & H2 & _).
  - vm_compute. reflexivity.
  - exists adm. split; [exact H1|exact H2].
Defined.

(** A collection holding the password record, committed and gathered. *)
Lemma commit_then_gather_witness :
  gather Demo.hash_walgo_compare Demo.encrypt_secure Demo.decrypt Demo.ds
    PdbPwdEntry
    {| counter := 9;
       self := PdbEntries_init
                 (set_entries
                    (db_entries {| ents := [Demo.login_entry];
                                   ents_head := Demo.header [] |})
                    (Demo.header [])) |} =
  ({| counter := 10;
      self := {| ents := [reparsed PdbPwdEntry
                            (set_entries
                               (db_entries {| ents := [Demo.login_entry];
                                              ents_head := Demo.header [] |})
                               (Demo.header []))
                            9 Demo.login_entry];
                 ents_head :=
                   set_entries
                     (db_entries {| ents := [Demo.login_entry];
                                    ents_head := Demo.header [] |})
                     (Demo.header []) |} |}, Ok tt).
Proof.
  apply (@commit_then_gather Demo.hash_walgo_compare Demo.encrypt_secure
           Demo.decrypt Demo.ds PdbPwdEntry
           {| ents := [Demo.login_entry]; ents_head := Demo.header [] |}
           (Demo.header []) 9).
  - reflexivity.
  - reflexivity.
  - constructor; [|constructor]. unfold storable, same_secrets, gates_ok.
    repeat split; try reflexivity; try discriminate.
    + simpl. repeat constructor; simpl; intuition discriminate.
    + simpl. repeat constructor; simpl; discriminate.
Defined.

Lemma str_masks_secrets_witness :
  str Demo.repr
    (set_field Demo.encrypt_secure ["p"%byte] ["s"%byte] Demo.login_entry) =
  str Demo.repr
    (set_field Demo.encrypt_secure ["p"%byte] ["t"; "t"]%byte Demo.login_entry).
Proof.
  apply (@str_masks_secrets Demo.encrypt_secure Demo.repr Demo.login_entry
           ["p"%byte] ["s"%byte] ["t"; "t"]%byte
           (PdbEntries_init (Demo.header []))).
  - reflexivity.
  - simpl. auto.
Defined.


(** One field and the sentinel, through [from_entry] and through the loop
    of [gather] behind a tag. *)
Lemma field_area_decoding_witness :
  from_entry Demo.encrypt_secure (Demo.raw_entry 0 [] [])
    ["n"; "001"; "000"; "000"; "000"; "a"; "000"; "z"]%byte =
    Ok (Demo.raw_entry 0 [] [(["n"%byte], ["a"%byte])]) /\
  read_fields set_field_raw
    ["n"; "001"; "000"; "000"; "000"; "a"; "000"; "z"]%byte
    (Demo.pwd_entry 0 [] []) =
    Ok (Demo.pwd_entry 0 [] [(["n"%byte], ["a"%byte])], ["z"%byte]).
Proof.
  destruct (@field_area_decoding Demo.hash_walgo_compare Demo.encrypt_secure
              Demo.ds PdbRawEntry Demo.st_open (Demo.raw_entry 0 [] [])
              ["n"; "001"; "000"; "000"; "000"; "a"; "000"; "z"]%byte
              (Demo.raw_entry 0 [] [(["n"%byte], ["a"%byte])]) ["z"%byte])
    as ([_ Hfrom] & _).
  destruct (@field_area_decoding Demo.hash_walgo_compare Demo.encrypt_secure
              Demo.ds PdbRawEntry Demo.st_open (Demo.pwd_entry 0 [] [])
              ["n"; "001"; "000"; "000"; "000"; "a"; "000"; "z"]%byte
              (Demo.pwd_entry 0 [] [(["n"%byte], ["a"%byte])]) ["z"%byte])
    as (_ & [_ Hraw] & _).
  split.
  - apply Hfrom. exists [(["n"%byte], ["a"%byte])], ["z"%byte].
    split; [|split; reflexivity].
    repeat constructor; simpl; discriminate.
  - apply Hraw. exists [(["n"%byte], ["a"%byte])].
    split; [|split; reflexivity].
    repeat constructor; simpl; discriminate.
Defined.
